(** * reply-gennie: the email service (src/email/email.service.ts)

    A shallow embedding of [EmailService] and the properties of its
    operations.

    Conventions of the embedding.
    - A JavaScript string is modelled by [string], read as the UTF-8 byte
      sequence of the text; [Buffer.from(message)] is then the identity and
      the base64 encoder works on these bytes.
    - A value that may be [undefined] at run time is a [jsval].
    - An [async] method is a computation in the monad [M]: it threads the
      service state, the outside world and the trace of calls and log lines,
      and it ends [Resolved] or [Rejected]; [await] is sequencing.
    - The mail provider and the classifier are parameters: a call may
      change the outside world, and resolve or reject, in any way.  What is
      thrown is an [Error] object.  The logger writes its line and the
      queue takes the job it is handed. *)

From Stdlib Require Import String Ascii List Arith NArith Bool Lia.
Import ListNotations.
Local Open Scope string_scope.

(* ===================================================================== *)
(** ** JavaScript values and strings *)
(* ===================================================================== *)

(** The values that flow through the service untyped at run time: the
    classifier's answers, the optional fields of provider responses. *)
Inductive jsval : Type :=
| JUndefined
| JString (s : string).

(** Template-literal conversion, [`${v}`]. *)
Definition tpl (v : jsval) : string :=
  match v with
  | JUndefined => "undefined"
  | JString s => s
  end.

(** ToBoolean: [undefined] and the empty string are falsy. *)
Definition truthy (v : jsval) : bool :=
  match v with
  | JUndefined => false
  | JString s => negb (String.eqb s "")
  end.

(** [v || d] with a string default. *)
Definition or_default (v : jsval) (d : string) : string :=
  match v with
  | JUndefined => d
  | JString s => if String.eqb s "" then d else s
  end.

Definition nl : string := String "010" "".

(** [Array.prototype.join]: [undefined] elements contribute the empty
    string. *)
Definition join_elem (v : jsval) : string :=
  match v with
  | JUndefined => ""
  | JString s => s
  end.

Fixpoint js_join (sep : string) (parts : list jsval) : string :=
  match parts with
  | [] => ""
  | [v] => join_elem v
  | v :: rest => join_elem v ++ sep ++ js_join sep rest
  end.

(** [s.replace(/c/g, d)] for a one-character pattern. *)
Fixpoint replace_all (c d : ascii) (s : string) : string :=
  match s with
  | EmptyString => EmptyString
  | String x r => String (if Ascii.eqb x c then d else x) (replace_all c d r)
  end.

(** [s.replace(/c+$/, '')]: the longest run of [c] that ends the string is
    removed. *)
Fixpoint strip_trailing (c : ascii) (s : string) : string :=
  match s with
  | EmptyString => EmptyString
  | String x r =>
      match strip_trailing c r with
      | EmptyString => if Ascii.eqb x c then EmptyString else String x EmptyString
      | r' => String x r'
      end
  end.

(* ===================================================================== *)
(** ** Base64: [Buffer.toString('base64')] and the base64url decoder *)
(* ===================================================================== *)

Module Base64.

Definition alphabet : string :=
  "ABCDEFGHIJKLMNOPQRSTUVWXYZabcdefghijklmnopqrstuvwxyz0123456789+/".

Definition url_alphabet : string :=
  "ABCDEFGHIJKLMNOPQRSTUVWXYZabcdefghijklmnopqrstuvwxyz0123456789-_".

Definition pad : ascii := "="%char.

Fixpoint char_at (tbl : string) (n : nat) : ascii :=
  match tbl, n with
  | EmptyString, _ => pad
  | String c _, O => c
  | String _ r, S k => char_at r k
  end.

Fixpoint index_of (tbl : string) (c : ascii) : option N :=
  match tbl with
  | EmptyString => None
  | String x r =>
      if Ascii.eqb x c then Some 0%N
      else option_map N.succ (index_of r c)
  end.

Definition digit (n : N) : ascii := char_at alphabet (N.to_nat n).

(** The four 6-bit groups of a 24-bit block [b0 b1 b2]. *)
Definition sextet0 (b0 : N) : N := N.shiftr b0 2.
Definition sextet1 (b0 b1 : N) : N :=
  N.lor (N.shiftl (N.land b0 3) 4) (N.shiftr b1 4).
Definition sextet2 (b1 b2 : N) : N :=
  N.lor (N.shiftl (N.land b1 15) 2) (N.shiftr b2 6).
Definition sextet3 (b2 : N) : N := N.land b2 63.

(** Standard base64 with padding. *)
Fixpoint encode (s : string) : string :=
  match s with
  | EmptyString => EmptyString
  | String a EmptyString =>
      let b0 := N_of_ascii a in
      String (digit (sextet0 b0))
        (String (digit (sextet1 b0 0))
          (String pad (String pad EmptyString)))
  | String a (String b EmptyString) =>
      let b0 := N_of_ascii a in
      let b1 := N_of_ascii b in
      String (digit (sextet0 b0))
        (String (digit (sextet1 b0 b1))
          (String (digit (sextet2 b1 0))
            (String pad EmptyString)))
  | String a (String b (String c rest)) =>
      let b0 := N_of_ascii a in
      let b1 := N_of_ascii b in
      let b2 := N_of_ascii c in
      String (digit (sextet0 b0))
        (String (digit (sextet1 b0 b1))
          (String (digit (sextet2 b1 b2))
            (String (digit (sextet3 b2)) (encode rest))))
  end.

(** The three bytes carried by four 6-bit groups. *)
Definition octet0 (s0 s1 : N) : N := N.lor (N.shiftl s0 2) (N.shiftr s1 4).
Definition octet1 (s1 s2 : N) : N :=
  N.lor (N.shiftl (N.land s1 15) 4) (N.shiftr s2 2).
Definition octet2 (s2 s3 : N) : N := N.lor (N.shiftl (N.land s2 3) 6) s3.

(** Decoder of unpadded base64url (RFC 4648, section 5): any character
    outside the URL-safe alphabet, and a lone trailing character, are
    rejected. *)
Fixpoint url_decode (s : string) : option string :=
  match s with
  | EmptyString => Some EmptyString
  | String _ EmptyString => None
  | String c0 (String c1 EmptyString) =>
      match index_of url_alphabet c0, index_of url_alphabet c1 with
      | Some s0, Some s1 =>
          Some (String (ascii_of_N (octet0 s0 s1)) EmptyString)
      | _, _ => None
      end
  | String c0 (String c1 (String c2 EmptyString)) =>
      match index_of url_alphabet c0, index_of url_alphabet c1,
            index_of url_alphabet c2 with
      | Some s0, Some s1, Some s2 =>
          Some (String (ascii_of_N (octet0 s0 s1))
                 (String (ascii_of_N (octet1 s1 s2)) EmptyString))
      | _, _, _ => None
      end
  | String c0 (String c1 (String c2 (String c3 rest))) =>
      match index_of url_alphabet c0, index_of url_alphabet c1,
            index_of url_alphabet c2, index_of url_alphabet c3,
            url_decode rest with
      | Some s0, Some s1, Some s2, Some s3, Some r =>
          Some (String (ascii_of_N (octet0 s0 s1))
                 (String (ascii_of_N (octet1 s1 s2))
                   (String (ascii_of_N (octet2 s2 s3)) r)))
      | _, _, _, _, _ => None
      end
  end.

End Base64.

(** [Buffer.from(message).toString('base64')
      .replace(/\+/g, '-').replace(/\//g, '_').replace(/=+$/, '')] *)
Definition base64url (message : string) : string :=
  strip_trailing "=" (replace_all "/" "_" (replace_all "+" "-" (Base64.encode message))).

(** [createReplyMessage(from, to, subject, text, messageId)].  The first
    three arguments and [messageId] are interpolated into template
    literals; [text] is an array element of its own, which [join] renders
    as the empty string when it is [undefined]. *)
Definition messageParts (from to subject : string) (text : jsval)
    (messageId : string) : list jsval :=
  [ JString ("From: " ++ from);
    JString ("To: " ++ to);
    JString ("Subject: Re: " ++ subject);
    JString ("In-Reply-To: " ++ messageId);
    JString ("References: " ++ messageId);
    JString "";
    text ].

Definition createReplyMessage (from to subject : string) (text : jsval)
    (messageId : string) : string :=
  let message := js_join nl (messageParts from to subject text messageId) in
  base64url message.

(* ===================================================================== *)
(** ** Collaborators: mail provider, classifier, logger, queue *)
(* ===================================================================== *)

(** A thrown value: an [Error] object, read through [error.message]. *)
Record JsError : Type := { err_message : string }.

Definition TypeError_undefined (prop : string) : JsError :=
  {| err_message :=
       "Cannot read properties of undefined (reading '" ++ prop ++ "')" |}.

(** How an awaited promise settles. *)
Inductive Outcome (A : Type) : Type :=
| Resolved (a : A)
| Rejected (e : JsError).
Arguments Resolved {A} a.
Arguments Rejected {A} e.

(** [{ name, value }] of a message part header; both fields are optional
    in the provider's schema. *)
Record Header : Type := { header_name : jsval; header_value : jsval }.

Record MessagePart : Type := { part_headers : option (list Header) }.

(** [res.data] of [users.messages.get]. *)
Record GmailMessage : Type :=
  { msg_payload : option MessagePart; msg_snippet : jsval }.

(** An element of [res.data.messages] of [users.messages.list]. *)
Record MessageRef : Type := { ref_id : string }.

Record ListData : Type := { list_messages : option (list MessageRef) }.

(** [res.data] of [users.messages.send]. *)
Record SendData : Type := { sent_id : jsval }.

(** The value of [this.labelMapping[category] || null]: a label of the
    mapping itself, a member inherited from [Object.prototype] (a function
    or an object, never a string), [undefined] or [null]. *)
Inductive propval : Type :=
| PUndefined
| PNull
| PString (s : string)
| PInherited (key : string).

(** [requestBody] of [users.messages.modify]. *)
Inductive ModifyBody : Type :=
| AddLabelIds (ids : list propval)
| RemoveLabelIds (ids : list string).

(** Payload of a queued job: [{}] or [{ messageId }]. *)
Inductive JobData : Type :=
| EmptyData
| MessageIdData (messageId : string).

Inductive LogLevel : Type := LvLog | LvWarn | LvError.

Record LogLine : Type :=
  { log_level : LogLevel; log_message : string; log_detail : option jsval }.

(** What an operation does to the outside, in order: the calls it makes
    on the mail provider, on [OpenaiService] and on the queue, and the
    lines it logs.  [EvRejected e] records that the call just made was
    rejected with [e]. *)
Inductive Event : Type :=
| EvList (userId q : string)
| EvGet (userId id : string)
| EvSend (userId raw : string)
| EvModify (userId id : string) (requestBody : ModifyBody)
| EvAnalyze (emailContent : string)
| EvCategorize (emailContent : string)
| EvGenerate (emailContent : string)
| EvQueueAdd (name : string) (data : JobData) (delay : option N)
| EvLogger (line : LogLine)
| EvRejected (e : JsError).

(** The mail provider behind [google.gmail({version: 'v1', auth})]: each
    call is made with the access token the client was built from, may read
    and change the outside world, and resolves or rejects. *)
Record Gmail (World : Type) : Type :=
  { messages_list : string -> string -> string -> World -> Outcome ListData * World;
    messages_get : string -> string -> string -> World -> Outcome GmailMessage * World;
    messages_send : string -> string -> string -> World -> Outcome SendData * World;
    messages_modify : string -> string -> string -> ModifyBody -> World -> Outcome unit * World }.
Arguments messages_list {World} _ _ _ _ _.
Arguments messages_get {World} _ _ _ _ _.
Arguments messages_send {World} _ _ _ _ _.
Arguments messages_modify {World} _ _ _ _ _ _.

(** What a call of an [OpenaiService] method does: it may write log lines
    of its own, and it resolves with a value or rejects. *)
Record Reply : Type := { reply_logs : list LogLine; reply_outcome : Outcome jsval }.

(** The interface of [OpenaiService] (src/openai/openai.service.ts) that
    the email service calls. *)
Record OpenaiService (World : Type) : Type :=
  { analyzeEmailContext : string -> World -> Reply * World;
    categorizeEmailContent : string -> World -> Reply * World;
    generateEmailReply : string -> World -> Reply * World }.
Arguments analyzeEmailContext {World} _ _ _.
Arguments categorizeEmailContent {World} _ _ _.
Arguments generateEmailReply {World} _ _ _.

(** The text-generation provider behind [OpenaiService]. *)
Record LanguageModel (World : Type) : Type :=
  { lm_analyze : string -> World -> Outcome string * World;
    lm_categorize : string -> World -> Outcome string * World;
    lm_generate : string -> World -> Outcome string * World }.
Arguments lm_analyze {World} _ _ _.
Arguments lm_categorize {World} _ _ _.
Arguments lm_generate {World} _ _ _.

(** Modelled from the spec: [OpenaiService] (src/openai/openai.service.ts)
    is missing from the sources.  The specification says that each step's
    failure is caught and logged locally within that step, and that a
    failed generate-reply yields an undefined reply body passed forward:
    a method forwards the provider's text, and when the provider call
    fails it logs the error and resolves with [undefined].  How the line
    is worded is not specified: [report] stands for it. *)
Definition guarded {World : Type} (report : JsError -> LogLine)
    (call : string -> World -> Outcome string * World)
    (text : string) (w : World) : Reply * World :=
  match call text w with
  | (Resolved s, w') =>
      ({| reply_logs := []; reply_outcome := Resolved (JString s) |}, w')
  | (Rejected e, w') =>
      ({| reply_logs := [report e]; reply_outcome := Resolved JUndefined |}, w')
  end.

Definition OpenaiService_spec {World : Type} (report : JsError -> LogLine)
    (lm : LanguageModel World) : OpenaiService World :=
  {| analyzeEmailContext := guarded report (lm_analyze lm);
     categorizeEmailContent := guarded report (lm_categorize lm);
     generateEmailReply := guarded report (lm_generate lm) |}.

(* ===================================================================== *)
(** ** The monad of [async] methods *)
(* ===================================================================== *)

(** The service's own mutable field, and the world outside. *)
Record State (World : Type) : Type :=
  { world : World; gmailClient : option string }.
Arguments world {World} _.
Arguments gmailClient {World} _.
Arguments Build_State {World} _ _.

(** One run of a method: how it settled, what it did, the state it left. *)
Record Run (World A : Type) : Type :=
  { result : Outcome A; events : list Event; final : State World }.
Arguments result {World A} _.
Arguments events {World A} _.
Arguments final {World A} _.
Arguments Build_Run {World A} _ _ _.

Definition M (World A : Type) : Type := State World -> Run World A.

Section Monad.
Context {World : Type}.

Definition ret {A} (a : A) : M World A :=
  fun st => {| result := Resolved a; events := []; final := st |}.

Definition throw {A} (e : JsError) : M World A :=
  fun st => {| result := Rejected e; events := []; final := st |}.

Definition bind {A B} (m : M World A) (k : A -> M World B) : M World B :=
  fun st =>
    let r := m st in
    match result r with
    | Resolved a =>
        let r' := k a (final r) in
        {| result := result r'; events := events r ++ events r';
           final := final r' |}
    | Rejected e =>
        {| result := Rejected e; events := events r; final := final r |}
    end.

(** [try { body } catch (error) { handler }] *)
Definition try_catch {A} (body : M World A) (handler : JsError -> M World A)
  : M World A :=
  fun st =>
    let r := body st in
    match result r with
    | Resolved _ => r
    | Rejected e =>
        let r' := handler e (final r) in
        {| result := result r'; events := events r ++ events r';
           final := final r' |}
    end.

Definition emit (ev : Event) : M World unit :=
  fun st => {| result := Resolved tt; events := [ev]; final := st |}.

Definition rejection {A} (o : Outcome A) : list Event :=
  match o with
  | Resolved _ => []
  | Rejected e => [EvRejected e]
  end.

(** An awaited call of the mail provider. *)
Definition call {A} (ev : Event) (op : World -> Outcome A * World) : M World A :=
  fun st =>
    let ow := op (world st) in
    {| result := fst ow; events := ev :: rejection (fst ow);
       final := {| world := snd ow; gmailClient := gmailClient st |} |}.

(** An awaited call of an [OpenaiService] method. *)
Definition service_call (ev : Event) (op : World -> Reply * World)
  : M World jsval :=
  fun st =>
    let rw := op (world st) in
    {| result := reply_outcome (fst rw);
       events := ev :: map EvLogger (reply_logs (fst rw))
                    ++ rejection (reply_outcome (fst rw));
       final := {| world := snd rw; gmailClient := gmailClient st |} |}.

(** [for (const x of l) { await body(x) }] *)
Fixpoint for_each {A} (l : list A) (body : A -> M World unit) : M World unit :=
  match l with
  | [] => ret tt
  | x :: rest => bind (body x) (fun _ => for_each rest body)
  end.

End Monad.

Declare Scope js_scope.
Delimit Scope js_scope with js.
Notation "x <- m ;; k" := (bind m (fun x => k))
  (at level 61, m at next level, right associativity) : js_scope.
Notation "m ;; k" := (bind m (fun _ => k))
  (at level 61, right associativity) : js_scope.

(* ===================================================================== *)
(** ** [EmailService] *)
(* ===================================================================== *)

(** [{ from, to, subject, emailContent }], as [getEmailData] returns it. *)
Record EmailData : Type :=
  { email_from : string; email_to : string; email_subject : string;
    emailContent : string }.

(** [{ from, to, subject, text }], the argument of [sendReplyEmail]. *)
Record ReplyData : Type :=
  { reply_from : string; reply_to : string; reply_subject : string;
    reply_text : jsval }.

(** The own properties of [labelMapping]. *)
Definition labelMapping : list (string * string) :=
  [ ("Interested", "Label_3035777443514222121");
    ("Not interested", "Label_5649682475137114370");
    ("More information", "Label_5331249162142973886") ].

(** The properties every object literal inherits from [Object.prototype]. *)
Definition object_prototype_keys : list string :=
  [ "constructor"; "__defineGetter__"; "__defineSetter__"; "hasOwnProperty";
    "__lookupGetter__"; "__lookupSetter__"; "isPrototypeOf";
    "propertyIsEnumerable"; "toString"; "valueOf"; "__proto__";
    "toLocaleString" ].

Fixpoint own_property (o : list (string * string)) (key : string) : option string :=
  match o with
  | [] => None
  | (k, v) :: rest => if String.eqb k key then Some v else own_property rest key
  end.

Definition mem_string (key : string) (l : list string) : bool :=
  existsb (String.eqb key) l.

(** [this.labelMapping[category]]: the key is the string form of
    [category]; an own property wins, then the prototype is searched. *)
Definition labelMapping_get (category : jsval) : propval :=
  let key := tpl category in
  match own_property labelMapping key with
  | Some v => PString v
  | None => if mem_string key object_prototype_keys then PInherited key
            else PUndefined
  end.

Definition prop_truthy (v : propval) : bool :=
  match v with
  | PUndefined | PNull => false
  | PString s => negb (String.eqb s "")
  | PInherited _ => true
  end.

(** [v || null] *)
Definition or_null (v : propval) : propval :=
  if prop_truthy v then v else PNull.

(** [`${labelId}`] *)
Definition tpl_prop (v : propval) : string :=
  match v with
  | PUndefined => "undefined"
  | PNull => "null"
  | PString s => s
  | PInherited key =>
      if String.eqb key "__proto__" then "[object Object]"
      else "function "
           ++ (if String.eqb key "constructor" then "Object" else key)
           ++ "() { [native code] }"
  end.

Definition jsval_eqb (a b : jsval) : bool :=
  match a, b with
  | JUndefined, JUndefined => true
  | JString x, JString y => String.eqb x y
  | _, _ => false
  end.

(** [headers.find(header => header.name === n)?.value] *)
Definition find_header (headers : list Header) (n : string) : jsval :=
  match find (fun header => jsval_eqb (header_name header) (JString n)) headers with
  | Some header => header_value header
  | None => JUndefined
  end.

Section EmailService.
Context {World : Type}.
Variable gmail : Gmail World.
Variable openaiService : OpenaiService World.

Local Open Scope js_scope.
Local Abbreviation M := (M World).

Definition line (lv : LogLevel) (msg : string) (detail : option jsval) : Event :=
  EvLogger {| log_level := lv; log_message := msg; log_detail := detail |}.

Definition logger_log (msg : string) (detail : option jsval) : M unit :=
  emit (line LvLog msg detail).
Definition logger_warn (msg : string) (detail : option jsval) : M unit :=
  emit (line LvWarn msg detail).
Definition logger_error (msg : string) (detail : option jsval) : M unit :=
  emit (line LvError msg detail).

(** [this.emailQueue.add(name, data, opts)]: the job is handed to the
    queue, which takes it. *)
Definition emailQueue_add (name : string) (data : JobData) (delay : option N)
  : M unit :=
  emit (EvQueueAdd name data delay).

(** [this.gmailClient.users]: a [TypeError] while the field is
    [undefined], otherwise the client, known by the token it carries. *)
Definition gmailClient_users : M string :=
  fun st =>
    match gmailClient st with
    | Some accessToken => ret accessToken st
    | None => throw (TypeError_undefined "users") st
    end.

Definition users_messages_list (userId q : string) : M ListData :=
  c <- gmailClient_users ;;
  call (EvList userId q) (messages_list gmail c userId q).

Definition users_messages_get (userId id : string) : M GmailMessage :=
  c <- gmailClient_users ;;
  call (EvGet userId id) (messages_get gmail c userId id).

Definition users_messages_send (userId raw : string) : M SendData :=
  c <- gmailClient_users ;;
  call (EvSend userId raw) (messages_send gmail c userId raw).

Definition users_messages_modify (userId id : string) (body : ModifyBody)
  : M unit :=
  c <- gmailClient_users ;;
  call (EvModify userId id body) (messages_modify gmail c userId id body).

Definition initializeGmailClient (accessToken : string) : M unit :=
  fun st =>
    {| result := Resolved tt; events := [];
       final := {| world := world st; gmailClient := Some accessToken |} |}.

Definition scheduleEmailChecking : M unit :=
  emailQueue_add "checkUnreadEmails" EmptyData (Some 60000%N).

Definition checkUnreadEmails : M unit :=
  try_catch
    (fun st =>
       match gmailClient st with
       | None => ret tt st
       | Some _ =>
           (res <- users_messages_list "me" "is:unread" ;;
            let messages :=
              match list_messages res with Some l => l | None => [] end in
            for_each messages (fun message =>
              emailQueue_add "processEmail" (MessageIdData (ref_id message)) None))
           st
       end)
    (fun error =>
       logger_error "Error checking unread emails:"
         (Some (JString (err_message error)))).

Definition getEmailData (messageId : string) : M (option EmailData) :=
  try_catch
    (email <- users_messages_get "me" messageId ;;
     payload <- match msg_payload email with
                | Some p => ret p
                | None => throw (TypeError_undefined "headers")
                end ;;
     headers <- match part_headers payload with
                | Some hs => ret hs
                | None => throw (TypeError_undefined "find")
                end ;;
     let subject := or_default (find_header headers "Subject") "No Subject" in
     let from := or_default (find_header headers "From") "" in
     let to := or_default (find_header headers "To") "" in
     let content := or_default (msg_snippet email) "" in
     ret (Some {| email_from := from; email_to := to;
                  email_subject := subject; emailContent := content |}))
    (fun error =>
       logger_error
         ("Error fetching email data for message ID " ++ messageId ++ ":")
         (Some (JString (err_message error))) ;;
       ret None).

Definition sendReplyEmail (messageId : string) (emailData : ReplyData) : M unit :=
  try_catch
    (let from := reply_from emailData in
     let to := reply_to emailData in
     let subject := reply_subject emailData in
     let text := reply_text emailData in
     let message := createReplyMessage to from subject text messageId in
     res <- users_messages_send "me" message ;;
     logger_log
       ("Reply sent to: " ++ from ++ ", message ID: " ++ tpl (sent_id res)) None)
    (fun error =>
       logger_error "Error sending reply email:"
         (Some (JString (err_message error)))).

Definition assignLabelToEmail (messageId : string) (labelId : propval) : M unit :=
  try_catch
    (users_messages_modify "me" messageId (AddLabelIds [labelId]) ;;
     logger_log
       ("Label " ++ tpl_prop labelId ++ " assigned to email: " ++ messageId) None)
    (fun error =>
       logger_error
         ("Error assigning label to email for message ID " ++ messageId ++ ":")
         (Some (JString (err_message error)))).

Definition markEmailAsRead (messageId : string) : M unit :=
  try_catch
    (users_messages_modify "me" messageId (RemoveLabelIds ["UNREAD"]) ;;
     logger_log ("Email marked as read: " ++ messageId) None)
    (fun error =>
       logger_error
         ("Error marking email as read for message ID " ++ messageId ++ ":")
         (Some (JString (err_message error)))).

Definition processIncomingEmail (messageId : string) (emailData : EmailData)
  : M unit :=
  try_catch
    (let from := email_from emailData in
     let to := email_to emailData in
     let subject := email_subject emailData in
     let content := emailContent emailData in
     emailContext <- service_call (EvAnalyze content)
                       (analyzeEmailContext openaiService content) ;;
     logger_log "Email Context:" (Some emailContext) ;;
     category <- service_call (EvCategorize content)
                   (categorizeEmailContent openaiService content) ;;
     logger_log "Email Category:" (Some category) ;;
     let labelId := or_null (labelMapping_get category) in
     (if prop_truthy labelId
      then assignLabelToEmail messageId labelId
      else logger_warn ("No label found for category: " ++ tpl category) None) ;;
     replyContent <- service_call (EvGenerate content)
                       (generateEmailReply openaiService content) ;;
     logger_log "Generated Reply:" (Some replyContent) ;;
     sendReplyEmail messageId
       {| reply_from := from; reply_to := to; reply_subject := subject;
          reply_text := replyContent |} ;;
     markEmailAsRead messageId)
    (fun error =>
       logger_error "Error processing incoming email:"
         (Some (JString (err_message error)))).

(** The public methods of the service, as a caller invokes them. *)
Inductive Operation : Type :=
| OpInitializeGmailClient (accessToken : string)
| OpScheduleEmailChecking
| OpCheckUnreadEmails
| OpGetEmailData (messageId : string)
| OpProcessIncomingEmail (messageId : string) (emailData : EmailData).

Definition discard {A} (m : M A) : M unit := bind m (fun _ => ret tt).

Definition invoke (op : Operation) : M unit :=
  match op with
  | OpInitializeGmailClient accessToken => initializeGmailClient accessToken
  | OpScheduleEmailChecking => scheduleEmailChecking
  | OpCheckUnreadEmails => checkUnreadEmails
  | OpGetEmailData messageId => discard (getEmailData messageId)
  | OpProcessIncomingEmail messageId emailData =>
      processIncomingEmail messageId emailData
  end.

End EmailService.

(** *** Reading a trace *)

Definition is_provider_call (ev : Event) : bool :=
  match ev with
  | EvList _ _ | EvGet _ _ | EvSend _ _ | EvModify _ _ _ => true
  | _ => false
  end.

Definition is_collaborator_call (ev : Event) : bool :=
  match ev with
  | EvLogger _ | EvRejected _ => false
  | _ => true
  end.

Definition is_label_call (ev : Event) : bool :=
  match ev with
  | EvModify _ _ (AddLabelIds _) => true
  | _ => false
  end.

(** The jobs handed to the queue, in order. *)
Fixpoint queued (evs : list Event) : list (string * JobData * option N) :=
  match evs with
  | [] => []
  | EvQueueAdd name data delay :: rest => (name, data, delay) :: queued rest
  | _ :: rest => queued rest
  end.

(** The raw messages handed to [users.messages.send], in order. *)
Fixpoint sent_raw (evs : list Event) : list string :=
  match evs with
  | [] => []
  | EvSend _ raw :: rest => raw :: sent_raw rest
  | _ :: rest => sent_raw rest
  end.

Definition job_name (job : string * JobData * option N) : string :=
  fst (fst job).

Definition job_messageId (job : string * JobData * option N) : option string :=
  match job with
  | (_, MessageIdData messageId, _) => Some messageId
  | (_, EmptyData, _) => None
  end.

(** The job [checkUnreadEmails] queues for a listed message. *)
Definition process_job (message : MessageRef) : string * JobData * option N :=
  ("processEmail", MessageIdData (ref_id message), None).

(** The two jobs the service hands to the queue. *)
Definition service_job (job : string * JobData * option N) : Prop :=
  job = ("checkUnreadEmails", EmptyData, Some 60000%N)
  \/ exists messageId, job = ("processEmail", MessageIdData messageId, None).

(** *** The lines the service logs *)

(** The line [checkUnreadEmails] logs when it fails. *)
Definition check_failure (e : JsError) : Event :=
  line LvError "Error checking unread emails:" (Some (JString (err_message e))).

(** The line [getEmailData] logs when it fails. *)
Definition fetch_failure (messageId : string) (e : JsError) : Event :=
  line LvError ("Error fetching email data for message ID " ++ messageId ++ ":")
    (Some (JString (err_message e))).

(** The error lines of the three steps of [processIncomingEmail] that call
    the mail provider, and of the handler of [processIncomingEmail]
    itself. *)
Definition label_failure (messageId : string) (e : JsError) : Event :=
  line LvError ("Error assigning label to email for message ID " ++ messageId ++ ":")
    (Some (JString (err_message e))).

Definition send_failure (e : JsError) : Event :=
  line LvError "Error sending reply email:" (Some (JString (err_message e))).

Definition read_failure (messageId : string) (e : JsError) : Event :=
  line LvError ("Error marking email as read for message ID " ++ messageId ++ ":")
    (Some (JString (err_message e))).

Definition process_failure (e : JsError) : Event :=
  line LvError "Error processing incoming email:" (Some (JString (err_message e))).

(** The warning of the label lookup. *)
Definition no_label_warning (category : jsval) : Event :=
  line LvWarn ("No label found for category: " ++ tpl category) None.

(** *** The traces of the operations *)

(** The trace of one call of an [OpenaiService] method. *)
Definition service_events (request : Event) (r : Reply) : list Event :=
  request :: (map EvLogger (reply_logs r) ++ rejection (reply_outcome r))%list.

(** The trace of a step that makes one provider call inside its own
    [try]/[catch]: without a client, the [TypeError] is logged and nothing
    is called; with a client, the call is made once, and then either a
    plain line is logged or the rejection is logged by the step. *)
Definition step_events (client : option string) (request : Event)
    (failure : JsError -> Event) (evs : list Event) : Prop :=
  match client with
  | None => evs = [failure (TypeError_undefined "users")]
  | Some _ =>
      (exists msg, evs = [request; line LvLog msg None])
      \/ (exists e, evs = [request; EvRejected e; failure e])
  end.

(** The trace of the label lookup of [processIncomingEmail] for a
    category: the label step when the lookup gives a truthy value, a
    warning otherwise. *)
Definition label_events (client : option string) (messageId : string)
    (category : jsval) (evs : list Event) : Prop :=
  let labelId := or_null (labelMapping_get category) in
  if prop_truthy labelId
  then step_events client (EvModify "me" messageId (AddLabelIds [labelId]))
         (label_failure messageId) evs
  else evs = [no_label_warning category].

(** The traces of [processIncomingEmail messageId emailData] started in
    the world [w0]: the run stops at the first call of [OpenaiService]
    that is rejected, which the outer handler logs, and otherwise goes
    through the label lookup, the reply and the read mark. *)
Inductive process_trace {World : Type} (svc : OpenaiService World)
    (client : option string) (messageId : string) (emailData : EmailData)
    (w0 : World) (evs : list Event) : Prop :=
| trace_analyze_rejected (r1 : Reply) (w1 : World) (e : JsError) :
    analyzeEmailContext svc (emailContent emailData) w0 = (r1, w1) ->
    reply_outcome r1 = Rejected e ->
    evs = (service_events (EvAnalyze (emailContent emailData)) r1
           ++ [process_failure e])%list ->
    process_trace svc client messageId emailData w0 evs
| trace_categorize_rejected (r1 r2 : Reply) (w1 w2 : World) (context : jsval)
    (e : JsError) :
    analyzeEmailContext svc (emailContent emailData) w0 = (r1, w1) ->
    reply_outcome r1 = Resolved context ->
    categorizeEmailContent svc (emailContent emailData) w1 = (r2, w2) ->
    reply_outcome r2 = Rejected e ->
    evs = (service_events (EvAnalyze (emailContent emailData)) r1
           ++ [line LvLog "Email Context:" (Some context)]
           ++ service_events (EvCategorize (emailContent emailData)) r2
           ++ [process_failure e])%list ->
    process_trace svc client messageId emailData w0 evs
| trace_generate_rejected (r1 r2 r3 : Reply) (w1 w2 w3 w4 : World)
    (context category : jsval) (label_evs : list Event) (e : JsError) :
    analyzeEmailContext svc (emailContent emailData) w0 = (r1, w1) ->
    reply_outcome r1 = Resolved context ->
    categorizeEmailContent svc (emailContent emailData) w1 = (r2, w2) ->
    reply_outcome r2 = Resolved category ->
    label_events client messageId category label_evs ->
    generateEmailReply svc (emailContent emailData) w3 = (r3, w4) ->
    reply_outcome r3 = Rejected e ->
    evs = (service_events (EvAnalyze (emailContent emailData)) r1
           ++ [line LvLog "Email Context:" (Some context)]
           ++ service_events (EvCategorize (emailContent emailData)) r2
           ++ [line LvLog "Email Category:" (Some category)]
           ++ label_evs
           ++ service_events (EvGenerate (emailContent emailData)) r3
           ++ [process_failure e])%list ->
    process_trace svc client messageId emailData w0 evs
| trace_completed (r1 r2 r3 : Reply) (w1 w2 w3 w4 : World)
    (context category replyContent : jsval)
    (label_evs send_evs read_evs : list Event) :
    analyzeEmailContext svc (emailContent emailData) w0 = (r1, w1) ->
    reply_outcome r1 = Resolved context ->
    categorizeEmailContent svc (emailContent emailData) w1 = (r2, w2) ->
    reply_outcome r2 = Resolved category ->
    label_events client messageId category label_evs ->
    generateEmailReply svc (emailContent emailData) w3 = (r3, w4) ->
    reply_outcome r3 = Resolved replyContent ->
    step_events client
      (EvSend "me"
         (createReplyMessage (email_to emailData) (email_from emailData)
            (email_subject emailData) replyContent messageId))
      send_failure send_evs ->
    step_events client (EvModify "me" messageId (RemoveLabelIds ["UNREAD"]))
      (read_failure messageId) read_evs ->
    evs = (service_events (EvAnalyze (emailContent emailData)) r1
           ++ [line LvLog "Email Context:" (Some context)]
           ++ service_events (EvCategorize (emailContent emailData)) r2
           ++ [line LvLog "Email Category:" (Some category)]
           ++ label_evs
           ++ service_events (EvGenerate (emailContent emailData)) r3
           ++ [line LvLog "Generated Reply:" (Some replyContent)]
           ++ send_evs ++ read_evs)%list ->
    process_trace svc client messageId emailData w0 evs.

(** *** Predicates used to state the properties *)

(** The rejection [e] was reported on the logger at level error. *)
Definition logged (e : JsError) (evs : list Event) : Prop :=
  exists msg, In (line LvError msg (Some (JString (err_message e)))) evs.

(** A run that keeps its failures to itself: it resolves, every rejected
    call in it is reported on the logger, and no provider request is
    issued twice. *)
Definition contained {World A : Type} (r : Run World A) : Prop :=
  (exists a, result r = Resolved a)
  /\ (forall e, In (EvRejected e) (events r) -> logged e (events r))
  /\ NoDup (filter is_provider_call (events r)).

(** A step that resolves and reports each rejected call with its own
    failure line. *)
Definition caught_by {World : Type} (failure : JsError -> Event)
    (r : Run World unit) : Prop :=
  result r = Resolved tt
  /\ forall e, In (EvRejected e) (events r) -> In (failure e) (events r).

(** The reply is addressed from [sender] to [recipient]. *)
Definition addressed (sender recipient raw : string) : Prop :=
  exists rest,
    Base64.url_decode raw
    = Some ("From: " ++ sender ++ nl ++ "To: " ++ recipient ++ nl ++ rest).

(** The text of a reply, line by line. *)
Definition reply_block (a b S T M : string) : string :=
  String.concat nl
    [ "From: " ++ a; "To: " ++ b; "Subject: Re: " ++ S;
      "In-Reply-To: " ++ M; "References: " ++ M; ""; T ].

Definition header (n v : string) : Header :=
  {| header_name := JString n; header_value := JString v |}.

(** The first header of the list named exactly [n] has the value [v]. *)
Definition first_header (headers : list Header) (n : string) (v : jsval) : Prop :=
  exists pre post,
    headers = (pre ++ {| header_name := JString n; header_value := v |} :: post)%list
    /\ Forall (fun h => header_name h <> JString n) pre.

(** No header of the list is named exactly [n]. *)
Definition no_header (headers : list Header) (n : string) : Prop :=
  Forall (fun h => header_name h <> JString n) headers.

(** [p] holds of every number below [k]. *)
Fixpoint all_below (k : nat) (p : N -> bool) : bool :=
  match k with
  | O => true
  | S k' => p (N.of_nat k') && all_below k' p
  end.

Definition url_digit (n : N) : ascii :=
  Base64.char_at Base64.url_alphabet (N.to_nat n).

(** One URL-safe digit of the encoding: the digit after the two
    replacements. *)
Definition url_of (d : ascii) : ascii :=
  let d' := if Ascii.eqb d "+" then "-"%char else d in
  if Ascii.eqb d' "/" then "_"%char else d'.

Definition url_safe (c : ascii) : bool :=
  match Base64.index_of Base64.url_alphabet c with
  | Some _ => true
  | None => false
  end.

Fixpoint every_char (p : ascii -> bool) (s : string) : bool :=
  match s with
  | EmptyString => true
  | String c r => p c && every_char p r
  end.

Fixpoint has_char (c : ascii) (s : string) : bool :=
  match s with
  | EmptyString => false
  | String x r => Ascii.eqb x c || has_char c r
  end.

Fixpoint last_char (s : string) : option ascii :=
  match s with
  | EmptyString => None
  | String c EmptyString => Some c
  | String _ r => last_char r
  end.

(** *** Scripted collaborators

    Collaborators over a world that holds nothing, each answering every
    call the same way; they serve to run the service on concrete inputs. *)

Definition scripted_gmail (listed : Outcome ListData) (got : Outcome GmailMessage)
    (sent : Outcome SendData) (modified : Outcome unit) : Gmail unit :=
  {| messages_list := fun _ _ _ w => (listed, w);
     messages_get := fun _ _ _ w => (got, w);
     messages_send := fun _ _ _ w => (sent, w);
     messages_modify := fun _ _ _ _ w => (modified, w) |}.

Definition scripted_openai (context category reply : Outcome jsval)
  : OpenaiService unit :=
  {| analyzeEmailContext := fun _ w => ({| reply_logs := []; reply_outcome := context |}, w);
     categorizeEmailContent := fun _ w => ({| reply_logs := []; reply_outcome := category |}, w);
     generateEmailReply := fun _ w => ({| reply_logs := []; reply_outcome := reply |}, w) |}.

Definition scripted_model (context category reply : Outcome string)
  : LanguageModel unit :=
  {| lm_analyze := fun _ w => (context, w);
     lm_categorize := fun _ w => (category, w);
     lm_generate := fun _ w => (reply, w) |}.

(** A classifier that answers the three calls with the given texts. *)
Definition answering (context category reply : string) : OpenaiService unit :=
  scripted_openai (Resolved (JString context)) (Resolved (JString category))
    (Resolved (JString reply)).

Definition unbound : State unit := {| world := tt; gmailClient := None |}.
Definition bound : State unit := {| world := tt; gmailClient := Some "token" |}.

Definition an_error : JsError := {| err_message := "Request failed" |}.

Definition report_error (e : JsError) : LogLine :=
  {| log_level := LvError; log_message := "OpenAI request failed:";
     log_detail := Some (JString (err_message e)) |}.

Definition quiet_gmail : Gmail unit :=
  scripted_gmail (Resolved {| list_messages := None |})
    (Resolved {| msg_payload := None; msg_snippet := JUndefined |})
    (Resolved {| sent_id := JString "r1" |}) (Resolved tt).

Definition failing_gmail : Gmail unit :=
  scripted_gmail (Rejected an_error) (Rejected an_error) (Rejected an_error)
    (Rejected an_error).

(** A provider that applies labels but refuses to send. *)
Definition no_send_gmail : Gmail unit :=
  scripted_gmail (Resolved {| list_messages := None |})
    (Resolved {| msg_payload := None; msg_snippet := JUndefined |})
    (Rejected an_error) (Resolved tt).

(** A provider that answers every [get] with the given headers and no
    snippet. *)
Definition gmail_with_headers (headers : list Header) : Gmail unit :=
  scripted_gmail (Resolved {| list_messages := None |})
    (Resolved {| msg_payload := Some {| part_headers := Some headers |};
                 msg_snippet := JUndefined |})
    (Resolved {| sent_id := JString "r1" |}) (Resolved tt).

(** A provider that lists three unread messages. *)
Definition three_unread : Gmail unit :=
  scripted_gmail
    (Resolved {| list_messages :=
                   Some [ {| ref_id := "m1" |}; {| ref_id := "m2" |};
                          {| ref_id := "m3" |} ] |})
    (Resolved {| msg_payload := None; msg_snippet := JUndefined |})
    (Resolved {| sent_id := JString "r1" |}) (Resolved tt).

(** A language model whose reply generation always fails. *)
Definition mute_model : LanguageModel unit :=
  scripted_model (Resolved "ctx") (Resolved "Interested") (Rejected an_error).

Definition sample_email : EmailData :=
  {| email_from := "alice@example.com"; email_to := "me@example.com";
     email_subject := "Offer"; emailContent := "Tell me more" |}.

(** *** An earlier revision of the service *)

Section Revision0.
Context {World : Type}.
Variable gmail : Gmail World.

Local Open Scope js_scope.

(** [checkUnreadEmails] as the earlier revision of the class has it: the
    unread messages are listed, and the body of the loop over them is only
    the comment [// enqueue for processing]. *)
Definition checkUnreadEmails_rev0 : M World unit :=
  try_catch
    (fun st =>
       match gmailClient st with
       | None => ret tt st
       | Some _ =>
           (res <- users_messages_list gmail "me" "is:unread" ;;
            let messages :=
              match list_messages res with Some l => l | None => [] end in
            for_each messages (fun message => ret tt))
           st
       end)
    (fun error =>
       logger_error "Error checking unread emails:"
         (Some (JString (err_message error)))).

End Revision0.

(** *** More readings of a trace *)

Definition is_queue_add (ev : Event) : bool :=
  match ev with
  | EvQueueAdd _ _ _ => true
  | _ => false
  end.

Definition is_service_call (ev : Event) : bool :=
  match ev with
  | EvAnalyze _ | EvCategorize _ | EvGenerate _ => true
  | _ => false
  end.

(** A computation that leaves the bound client as it found it. *)
Definition keeps_client {World A : Type} (m : M World A) : Prop :=
  forall st, gmailClient (final (m st)) = gmailClient st.

(** A classifier whose every call is rejected. *)
Definition rejecting_openai : OpenaiService unit :=
  scripted_openai (Rejected an_error) (Rejected an_error) (Rejected an_error).

Definition is_read_call (ev : Event) : bool :=
  match ev with
  | EvModify _ _ (RemoveLabelIds _) => true
  | _ => false
  end.

(** The raw message decodes to a reply from [sender] to [recipient] whose
    subject line is "Re: " followed by [subject]. *)
Definition headed (sender recipient subject raw : string) : Prop :=
  exists rest,
    Base64.url_decode raw
    = Some ("From: " ++ sender ++ nl ++ "To: " ++ recipient ++ nl
            ++ "Subject: Re: " ++ subject ++ nl ++ rest).

(* ===================================================================== *)
(** * Properties *)
(* ===================================================================== *)

(** ** The reply encoding *)

Lemma all_below_spec (k : nat) (p : N -> bool) :
  all_below k p = true -> forall n, (n < N.of_nat k)%N -> p n = true.
Proof.
  induction k as [|k IH]; intros Hall n Hn.
  - lia.
  - cbn [all_below] in Hall. apply andb_true_iff in Hall as [Hk Hrest].
    destruct (N.eq_dec n (N.of_nat k)) as [->|Hne]; [exact Hk|].
    apply IH; [exact Hrest | lia].
Qed.

Lemma string_triples_ind (P : string -> Prop) :
  P EmptyString ->
  (forall a, P (String a EmptyString)) ->
  (forall a b, P (String a (String b EmptyString))) ->
  (forall a b c r, P r -> P (String a (String b (String c r)))) ->
  forall s, P s.
Proof.
  intros H0 H1 H2 H3.
  fix IH 1.
  intros [|a [|b [|c r]]].
  - exact H0.
  - apply H1.
  - apply H2.
  - apply H3, IH.
Qed.

Module Base64Facts.
Import Base64.
Local Open Scope N_scope.

(** Every 6-bit group has a digit in both alphabets; the URL-safe digit is
    what the two character replacements leave, it is never the padding
    character, and it is read back as the group. *)
Lemma digit_facts (n : N) :
  n < 64 ->
  (let d := digit n in
   let d' := if Ascii.eqb d "+" then "-"%char else d in
   if Ascii.eqb d' "/" then "_"%char else d') = url_digit n
  /\ Ascii.eqb (url_digit n) pad = false
  /\ index_of url_alphabet (url_digit n) = Some n.
Proof.
  intros Hn.
  pose (p := fun n : N =>
    Ascii.eqb
      (let d := digit n in
       let d' := if Ascii.eqb d "+" then "-"%char else d in
       if Ascii.eqb d' "/" then "_"%char else d') (url_digit n)
    && negb (Ascii.eqb (url_digit n) pad)
    && match index_of url_alphabet (url_digit n) with
       | Some m => N.eqb m n
       | None => false
       end).
  assert (Hp : p n = true).
  { apply (all_below_spec 64); [vm_compute; reflexivity | exact Hn]. }
  unfold p in Hp.
  apply andb_true_iff in Hp as [Hp H3].
  apply andb_true_iff in Hp as [H1 H2].
  apply Ascii.eqb_eq in H1. apply negb_true_iff in H2.
  destruct (index_of url_alphabet (url_digit n)) as [m|]; [|discriminate].
  apply N.eqb_eq in H3. subst m. auto.
Qed.

Lemma sextet_bounds (a b : N) :
  a < 256 -> b < 256 ->
  sextet0 a < 64 /\ sextet1 a b < 64 /\ sextet2 a b < 64 /\ sextet3 a < 64.
Proof.
  intros Ha Hb.
  pose (p := fun a b : N =>
    (sextet0 a <? 64) && (sextet1 a b <? 64) && (sextet2 a b <? 64)
    && (sextet3 a <? 64)).
  assert (Hp : p a b = true).
  { apply (all_below_spec 256 (fun b => p a b)); [|exact Hb].
    apply (all_below_spec 256 (fun a => all_below 256 (fun b => p a b)));
      [vm_compute; reflexivity | exact Ha]. }
  unfold p in Hp.
  repeat (apply andb_true_iff in Hp as [Hp ?]).
  repeat match goal with H : (_ <? _) = true |- _ => apply N.ltb_lt in H end.
  auto.
Qed.

(** The sextets of two neighbouring bytes carry those bytes. *)
Lemma octet_facts (a b : N) :
  a < 256 -> b < 256 ->
  octet0 (sextet0 a) (sextet1 a b) = a
  /\ N.land (sextet1 a b) 15 = N.shiftr b 4
  /\ N.shiftr (sextet2 a b) 2 = N.land a 15
  /\ N.lor (N.shiftl (N.shiftr a 4) 4) (N.land a 15) = a
  /\ octet2 (sextet2 a b) (sextet3 b) = b.
Proof.
  intros Ha Hb.
  pose (p := fun a b : N =>
    (octet0 (sextet0 a) (sextet1 a b) =? a)
    && (N.land (sextet1 a b) 15 =? N.shiftr b 4)
    && (N.shiftr (sextet2 a b) 2 =? N.land a 15)
    && (N.lor (N.shiftl (N.shiftr a 4) 4) (N.land a 15) =? a)
    && (octet2 (sextet2 a b) (sextet3 b) =? b)).
  assert (Hp : p a b = true).
  { apply (all_below_spec 256 (fun b => p a b)); [|exact Hb].
    apply (all_below_spec 256 (fun a => all_below 256 (fun b => p a b)));
      [vm_compute; reflexivity | exact Ha]. }
  unfold p in Hp.
  repeat (apply andb_true_iff in Hp as [Hp ?]).
  repeat match goal with H : (_ =? _) = true |- _ => apply N.eqb_eq in H end.
  auto.
Qed.

Lemma octet1_sextets (a b c : N) :
  a < 256 -> b < 256 -> c < 256 ->
  octet1 (sextet1 a b) (sextet2 b c) = b.
Proof.
  intros Ha Hb Hc. unfold octet1.
  destruct (octet_facts a b Ha Hb) as (_ & -> & _).
  destruct (octet_facts b c Hb Hc) as (_ & _ & -> & E & _).
  exact E.
Qed.

End Base64Facts.

Lemma strip_trailing_cons_ne (c x : ascii) (r : string) :
  Ascii.eqb x c = false ->
  strip_trailing c (String x r) = String x (strip_trailing c r).
Proof.
  intros Hx. cbn [strip_trailing]. rewrite Hx.
  destruct (strip_trailing c r); reflexivity.
Qed.

Lemma byte_bound (a : ascii) : (N_of_ascii a < 256)%N.
Proof. apply N_ascii_bounded. Qed.

Lemma replace_all_digit (d : ascii) (r : string) :
  replace_all "/" "_" (replace_all "+" "-" (String d r))
  = String (url_of d) (replace_all "/" "_" (replace_all "+" "-" r)).
Proof. reflexivity. Qed.

Lemma url_of_digit (n : N) :
  (n < 64)%N ->
  url_of (Base64.digit n) = url_digit n
  /\ Ascii.eqb (url_digit n) "=" = false
  /\ Base64.index_of Base64.url_alphabet (url_digit n) = Some n.
Proof. intros Hn. exact (Base64Facts.digit_facts n Hn). Qed.

Ltac sextets a b :=
  let H := fresh "Hs" in
  pose proof (Base64Facts.sextet_bounds (N_of_ascii a) (N_of_ascii b)
                (byte_bound a) (byte_bound b)) as H;
  destruct H as (? & ? & ? & ?).

Ltac to_url_digit :=
  repeat match goal with
  | |- context [url_of (Base64.digit ?n)] =>
      let E := fresh "E" in
      assert (E : (n < 64)%N) by assumption;
      destruct (url_of_digit n E) as (-> & ? & ?); clear E
  end.

Ltac unstrip :=
  repeat (rewrite strip_trailing_cons_ne by assumption).

Lemma zero_byte : N_of_ascii zero = 0%N.
Proof. reflexivity. Qed.

(** Decoding undoes the encoding. *)
Lemma url_decode_base64url (s : string) :
  Base64.url_decode (base64url s) = Some s.
Proof.
  unfold base64url.
  induction s as [|a|a b|a b c r IH] using string_triples_ind.
  - reflexivity.
  - cbn [Base64.encode]. rewrite !replace_all_digit.
    sextets a zero. rewrite zero_byte in *. to_url_digit. unstrip.
    change (strip_trailing "=" _) with EmptyString.
    cbn [Base64.url_decode].
    repeat match goal with H : Base64.index_of _ _ = Some _ |- _ => rewrite H; clear H end.
    destruct (Base64Facts.octet_facts (N_of_ascii a) 0 (byte_bound a) eq_refl) as (-> & _).
    rewrite ascii_N_embedding. reflexivity.
  - cbn [Base64.encode]. rewrite !replace_all_digit.
    sextets a b. sextets b zero. rewrite zero_byte in *. to_url_digit. unstrip.
    change (strip_trailing "=" _) with EmptyString.
    cbn [Base64.url_decode].
    repeat match goal with H : Base64.index_of _ _ = Some _ |- _ => rewrite H; clear H end.
    destruct (Base64Facts.octet_facts (N_of_ascii a) (N_of_ascii b)
                (byte_bound a) (byte_bound b)) as (-> & _).
    rewrite (Base64Facts.octet1_sextets (N_of_ascii a) (N_of_ascii b) 0
               (byte_bound a) (byte_bound b) eq_refl).
    rewrite !ascii_N_embedding. reflexivity.
  - cbn [Base64.encode]. rewrite !replace_all_digit.
    sextets a b. sextets b c. sextets c zero. to_url_digit. unstrip.
    cbn [Base64.url_decode].
    repeat match goal with H : Base64.index_of _ _ = Some _ |- _ => rewrite H; clear H end.
    rewrite IH.
    destruct (Base64Facts.octet_facts (N_of_ascii a) (N_of_ascii b)
                (byte_bound a) (byte_bound b)) as (-> & _).
    destruct (Base64Facts.octet_facts (N_of_ascii b) (N_of_ascii c)
                (byte_bound b) (byte_bound c)) as (_ & _ & _ & _ & ->).
    rewrite (Base64Facts.octet1_sextets (N_of_ascii a) (N_of_ascii b) (N_of_ascii c)
               (byte_bound a) (byte_bound b) (byte_bound c)).
    rewrite !ascii_N_embedding. reflexivity.
Qed.

Lemma url_digit_safe (n : N) :
  Base64.index_of Base64.url_alphabet (url_digit n) = Some n ->
  url_safe (url_digit n) = true.
Proof. intros H. unfold url_safe. rewrite H. reflexivity. Qed.

(** Every character of the encoding is a letter, a digit, [-] or [_]. *)
Lemma base64url_safe (s : string) :
  every_char url_safe (base64url s) = true.
Proof.
  unfold base64url.
  induction s as [|a|a b|a b c r IH] using string_triples_ind.
  - reflexivity.
  - cbn [Base64.encode]. rewrite !replace_all_digit.
    sextets a zero. rewrite zero_byte in *. to_url_digit. unstrip.
    change (strip_trailing "=" _) with EmptyString.
    cbn [every_char]. rewrite !url_digit_safe by assumption. reflexivity.
  - cbn [Base64.encode]. rewrite !replace_all_digit.
    sextets a b. sextets b zero. rewrite zero_byte in *. to_url_digit. unstrip.
    change (strip_trailing "=" _) with EmptyString.
    cbn [every_char]. rewrite !url_digit_safe by assumption. reflexivity.
  - cbn [Base64.encode]. rewrite !replace_all_digit.
    sextets a b. sextets b c. sextets c zero. to_url_digit. unstrip.
    cbn [every_char]. rewrite !url_digit_safe by assumption.
    rewrite IH. reflexivity.
Qed.

Lemma every_char_has_char (p : ascii -> bool) (c : ascii) (s : string) :
  p c = false -> every_char p s = true -> has_char c s = false.
Proof.
  intros Hc. induction s as [|x r IH]; cbn [every_char has_char]; intros H.
  - reflexivity.
  - apply andb_true_iff in H as [Hx Hr].
    rewrite (IH Hr), orb_false_r.
    destruct (Ascii.eqb x c) eqn:E; [|reflexivity].
    apply Ascii.eqb_eq in E. congruence.
Qed.

Lemma every_char_last_char (p : ascii -> bool) (c : ascii) (s : string) :
  every_char p s = true -> last_char s = Some c -> p c = true.
Proof.
  induction s as [|x r IH]; cbn [every_char last_char]; intros H L.
  - discriminate.
  - apply andb_true_iff in H as [Hx Hr].
    destruct r as [|y r'].
    + injection L as <-. exact Hx.
    + apply IH; assumption.
Qed.

Lemma js_join_message (a b S T M : string) :
  js_join nl (messageParts a b S (JString T) M) = reply_block a b S T M.
Proof. reflexivity. Qed.

(** C1. For every from [a], to [b], subject [S], text [T] and message id
    [M], base64url-decoding [createReplyMessage a b S T M] gives back the
    newline-joined block "From: a", "To: b", "Subject: Re: S",
    "In-Reply-To: M", "References: M", an empty line and [T]; the encoded
    string holds no [+], no [/], and does not end in [=]. *)
Theorem createReplyMessage_roundtrip (a b S T M : string) :
  let encoded := createReplyMessage a b S (JString T) M in
  Base64.url_decode encoded = Some (reply_block a b S T M)
  /\ has_char "+" encoded = false
  /\ has_char "/" encoded = false
  /\ last_char encoded <> Some "="%char.
Proof.
  cbv zeta. unfold createReplyMessage. rewrite js_join_message.
  pose proof (base64url_safe (reply_block a b S T M)) as Hsafe.
  split; [apply url_decode_base64url|].
  split; [exact (every_char_has_char url_safe "+" _ eq_refl Hsafe)|].
  split; [exact (every_char_has_char url_safe "/" _ eq_refl Hsafe)|].
  intros Hlast.
  pose proof (every_char_last_char url_safe "=" _ Hsafe Hlast) as H.
  discriminate H.
Qed.

Example createReplyMessage_abSTM :
  createReplyMessage "a" "b" "S" (JString "T") "M"
  = "RnJvbTogYQpUbzogYgpTdWJqZWN0OiBSZTogUwpJbi1SZXBseS1UbzogTQpSZWZlcmVuY2VzOiBNCgpU".
Proof. vm_compute. reflexivity. Qed.

(** ** Running a method step by step *)

Section Running.
Context {World : Type}.

Lemma bind_run {A B} (m : M World A) (k : A -> M World B) (st : State World) :
  bind m k st
  = match result (m st) with
    | Resolved a =>
        {| result := result (k a (final (m st)));
           events := (events (m st) ++ events (k a (final (m st))))%list;
           final := final (k a (final (m st))) |}
    | Rejected e =>
        {| result := Rejected e; events := events (m st); final := final (m st) |}
    end.
Proof. reflexivity. Qed.

Lemma try_catch_run {A} (body : M World A) (handler : JsError -> M World A)
    (st : State World) :
  try_catch body handler st
  = match result (body st) with
    | Resolved _ => body st
    | Rejected e =>
        {| result := result (handler e (final (body st)));
           events := (events (body st) ++ events (handler e (final (body st))))%list;
           final := final (handler e (final (body st))) |}
    end.
Proof. reflexivity. Qed.

Lemma service_call_run (ev : Event) (op : World -> Reply * World)
    (st : State World) (r : Reply) (w : World) :
  op (world st) = (r, w) ->
  service_call ev op st
  = {| result := reply_outcome r; events := service_events ev r;
       final := {| world := w; gmailClient := gmailClient st |} |}.
Proof. intros H. unfold service_call. rewrite H. reflexivity. Qed.

Lemma logger_log_run (msg : string) (detail : option jsval) (st : State World) :
  logger_log msg detail st
  = {| result := Resolved tt; events := [line LvLog msg detail]; final := st |}.
Proof. reflexivity. Qed.

(** A call on the provider through [this.gmailClient]. *)
Lemma provider_call_run {A} (ev : Event)
    (op : string -> World -> Outcome A * World) (st : State World) :
  bind gmailClient_users (fun c => call ev (op c)) st
  = match gmailClient st with
    | Some c =>
        {| result := fst (op c (world st));
           events := ev :: rejection (fst (op c (world st)));
           final := {| world := snd (op c (world st));
                       gmailClient := gmailClient st |} |}
    | None =>
        {| result := Rejected (TypeError_undefined "users"); events := [];
           final := st |}
    end.
Proof.
  unfold bind, gmailClient_users, call.
  destruct st as [w [c|]]; reflexivity.
Qed.

End Running.

(** ** Polling the mailbox *)

Lemma NoDup_map_Some {A : Type} (l : list A) :
  NoDup l -> NoDup (map Some l).
Proof.
  induction 1 as [|x l Hx _ IH]; cbn; constructor; [|exact IH].
  intros Hin. apply in_map_iff in Hin as (y & E & Hy).
  injection E as ->. exact (Hx Hy).
Qed.

Section Polling.
Context {World : Type}.
Variable gmail : Gmail World.

Lemma for_each_enqueue (messages : list MessageRef) (st : State World) :
  for_each messages (fun message =>
    emailQueue_add "processEmail" (MessageIdData (ref_id message)) None) st
  = {| result := Resolved tt;
       events := map (fun message =>
                   EvQueueAdd "processEmail" (MessageIdData (ref_id message)) None)
                   messages;
       final := st |}.
Proof.
  revert st. induction messages as [|m rest IH]; intros st.
  - reflexivity.
  - cbn [for_each]. unfold bind at 1. cbn. rewrite IH. reflexivity.
Qed.

Lemma queued_enqueue (messages : list MessageRef) :
  queued (map (fun message =>
            EvQueueAdd "processEmail" (MessageIdData (ref_id message)) None)
            messages)
  = map process_job messages.
Proof.
  induction messages as [|m rest IH]; cbn; [reflexivity|].
  rewrite IH. reflexivity.
Qed.

(** What [checkUnreadEmails] does once the provider has answered. *)
Lemma checkUnreadEmails_listed (st : State World) (accessToken : string)
    (data : ListData) (w' : World) :
  gmailClient st = Some accessToken ->
  messages_list gmail accessToken "me" "is:unread" (world st) = (Resolved data, w') ->
  checkUnreadEmails gmail st
  = {| result := Resolved tt;
       events := EvList "me" "is:unread"
                 :: map (fun message =>
                      EvQueueAdd "processEmail" (MessageIdData (ref_id message)) None)
                      (match list_messages data with Some l => l | None => [] end);
       final := {| world := w'; gmailClient := Some accessToken |} |}.
Proof.
  intros Hc Hl.
  unfold checkUnreadEmails, try_catch. rewrite Hc.
  unfold users_messages_list, gmailClient_users, bind, call. rewrite Hc.
  cbn. rewrite Hl. cbn. rewrite for_each_enqueue. cbn. rewrite Hc. reflexivity.
Qed.

(** C7. With no mail-provider session bound, [checkUnreadEmails] returns
    at once: it resolves, calls nothing, queues nothing, logs nothing and
    leaves the state as it was. *)
Theorem checkUnreadEmails_unbound (st : State World) :
  gmailClient st = None ->
  checkUnreadEmails gmail st
  = {| result := Resolved tt; events := []; final := st |}.
Proof.
  intros Hc. unfold checkUnreadEmails, try_catch. rewrite Hc. reflexivity.
Qed.

(** C5. When the provider returns a list of unread messages,
    [checkUnreadEmails] queues exactly one "processEmail" job per
    returned message, in order, each carrying that message's id as its
    [messageId]; so there are as many jobs as messages, and distinct ids
    give distinct payloads. *)
Theorem checkUnreadEmails_enqueues (st : State World) (accessToken : string)
    (messages : list MessageRef) (w' : World) :
  gmailClient st = Some accessToken ->
  messages_list gmail accessToken "me" "is:unread" (world st)
    = (Resolved {| list_messages := Some messages |}, w') ->
  let jobs := queued (events (checkUnreadEmails gmail st)) in
  jobs = map process_job messages
  /\ map job_messageId jobs = map (fun message => Some (ref_id message)) messages
  /\ length jobs = length messages
  /\ (NoDup (map ref_id messages) -> NoDup (map job_messageId jobs)).
Proof.
  intros Hc Hl. cbv zeta.
  rewrite (checkUnreadEmails_listed st accessToken _ w' Hc Hl).
  cbn [events list_messages queued]. rewrite queued_enqueue.
  assert (Hids : map job_messageId (map process_job messages)
                 = map (fun message => Some (ref_id message)) messages).
  { rewrite map_map. reflexivity. }
  split; [reflexivity|]. split; [exact Hids|].
  split; [apply length_map|].
  intros Hnd. rewrite Hids.
  rewrite <- (map_map ref_id Some).
  apply NoDup_map_Some, Hnd.
Qed.

End Polling.

Lemma checkUnreadEmails_unbound_witness :
  checkUnreadEmails quiet_gmail unbound
  = {| result := Resolved tt; events := []; final := unbound |}.
Proof. apply (checkUnreadEmails_unbound quiet_gmail unbound). reflexivity. Defined.

Lemma checkUnreadEmails_enqueues_witness :
  let jobs := queued (events (checkUnreadEmails three_unread bound)) in
  jobs = [ ("processEmail", MessageIdData "m1", None);
           ("processEmail", MessageIdData "m2", None);
           ("processEmail", MessageIdData "m3", None) ]
  /\ length jobs = 3
  /\ NoDup (map job_messageId jobs).
Proof.
  destruct (checkUnreadEmails_enqueues three_unread bound "token"
              [ {| ref_id := "m1" |}; {| ref_id := "m2" |}; {| ref_id := "m3" |} ]
              tt eq_refl eq_refl) as (Hjobs & _ & Hlen & Hdistinct).
  split; [exact Hjobs|]. split; [exact Hlen|].
  apply Hdistinct. cbn.
  repeat constructor; cbn; intuition discriminate.
Defined.

(** ** Fetching a message *)

Lemma jsval_eqb_eq (a b : jsval) : jsval_eqb a b = true <-> a = b.
Proof.
  destruct a as [|x], b as [|y]; cbn; split; intros H;
    try reflexivity; try discriminate.
  - apply String.eqb_eq in H. congruence.
  - injection H as ->. apply String.eqb_refl.
Qed.

Lemma find_header_none (headers : list Header) (n : string) :
  no_header headers n -> find_header headers n = JUndefined.
Proof.
  unfold no_header, find_header.
  induction 1 as [|h rest Hh _ IH]; cbn [find]; [reflexivity|].
  destruct (jsval_eqb (header_name h) (JString n)) eqn:E; [|exact IH].
  apply jsval_eqb_eq in E. contradiction.
Qed.

Lemma find_header_first (headers : list Header) (n : string) (v : jsval) :
  first_header headers n v -> find_header headers n = v.
Proof.
  intros (pre & post & -> & Hpre). unfold find_header.
  induction Hpre as [|h rest Hh _ IH]; cbn [find app].
  - cbn. rewrite String.eqb_refl. reflexivity.
  - destruct (jsval_eqb (header_name h) (JString n)) eqn:E; [|exact IH].
    apply jsval_eqb_eq in E. contradiction.
Qed.

Lemma or_default_falsy (v : jsval) (d : string) :
  truthy v = false -> or_default v d = d.
Proof.
  destruct v as [|s]; cbn; [reflexivity|].
  destruct (String.eqb s ""); [reflexivity | discriminate].
Qed.

Lemma or_default_nonempty (s d : string) :
  s <> "" -> or_default (JString s) d = s.
Proof.
  intros Hs. cbn. destruct (String.eqb s "") eqn:E; [|reflexivity].
  apply String.eqb_eq in E. contradiction.
Qed.

Lemma or_default_empty_default (s : string) : or_default (JString s) "" = s.
Proof.
  cbn. destruct (String.eqb s "") eqn:E; [|reflexivity].
  apply String.eqb_eq in E. symmetry. exact E.
Qed.

Section Fetching.
Context {World : Type}.
Variable gmail : Gmail World.

(** What [getEmailData] returns once the provider has answered with a
    message that carries a header list. *)
Lemma getEmailData_fetched (st : State World) (accessToken messageId : string)
    (email : GmailMessage) (headers : list Header) (w' : World) :
  gmailClient st = Some accessToken ->
  messages_get gmail accessToken "me" messageId (world st) = (Resolved email, w') ->
  msg_payload email = Some {| part_headers := Some headers |} ->
  getEmailData gmail messageId st
  = {| result :=
         Resolved (Some
           {| email_from := or_default (find_header headers "From") "";
              email_to := or_default (find_header headers "To") "";
              email_subject := or_default (find_header headers "Subject") "No Subject";
              emailContent := or_default (msg_snippet email) "" |});
       events := [EvGet "me" messageId];
       final := {| world := w'; gmailClient := Some accessToken |} |}.
Proof.
  intros Hc Hg Hp.
  unfold getEmailData, users_messages_get.
  rewrite try_catch_run, bind_run, provider_call_run, Hc, Hg.
  cbn [fst snd result events final rejection].
  rewrite bind_run, Hp. cbn [ret result events final].
  rewrite bind_run. cbn [ret part_headers result events final].
  reflexivity.
Qed.

(** C2, as the code has it.  When the provider answers with a message
    that carries a header list, [getEmailData] returns a record in which
    each of subject, from and to is the value of the first header whose
    name is exactly "Subject", "From", "To": for the subject, when that
    value is a non-empty string, and otherwise (no such header, or an
    empty or missing value) "No Subject"; for from and to, with ""
    when there is no such header; and the content is the snippet, or ""
    when the message has none. *)
Theorem getEmailData_extracts (st : State World) (accessToken messageId : string)
    (email : GmailMessage) (headers : list Header) (w' : World) :
  gmailClient st = Some accessToken ->
  messages_get gmail accessToken "me" messageId (world st) = (Resolved email, w') ->
  msg_payload email = Some {| part_headers := Some headers |} ->
  exists r,
    result (getEmailData gmail messageId st) = Resolved (Some r)
    /\ (forall X, first_header headers "Subject" (JString X) -> X <> "" ->
          email_subject r = X)
    /\ (forall v, first_header headers "Subject" v -> truthy v = false ->
          email_subject r = "No Subject")
    /\ (no_header headers "Subject" -> email_subject r = "No Subject")
    /\ (forall a, first_header headers "From" (JString a) -> email_from r = a)
    /\ (first_header headers "From" JUndefined \/ no_header headers "From" ->
        email_from r = "")
    /\ (forall b, first_header headers "To" (JString b) -> email_to r = b)
    /\ (first_header headers "To" JUndefined \/ no_header headers "To" ->
        email_to r = "")
    /\ (forall s, msg_snippet email = JString s -> emailContent r = s)
    /\ (msg_snippet email = JUndefined -> emailContent r = "").
Proof.
  intros Hc Hg Hp.
  rewrite (getEmailData_fetched st accessToken messageId email headers w' Hc Hg Hp).
  eexists. split; [reflexivity|]. cbn [email_subject email_from email_to emailContent].
  repeat split.
  - intros X HX Hne. rewrite (find_header_first _ _ _ HX).
    apply or_default_nonempty, Hne.
  - intros v Hv Hf. rewrite (find_header_first _ _ _ Hv).
    apply or_default_falsy, Hf.
  - intros Hn. rewrite (find_header_none _ _ Hn). reflexivity.
  - intros a Ha. rewrite (find_header_first _ _ _ Ha).
    apply or_default_empty_default.
  - intros [Hu|Hn];
      [rewrite (find_header_first _ _ _ Hu) | rewrite (find_header_none _ _ Hn)];
      reflexivity.
  - intros b Hb. rewrite (find_header_first _ _ _ Hb).
    apply or_default_empty_default.
  - intros [Hu|Hn];
      [rewrite (find_header_first _ _ _ Hu) | rewrite (find_header_none _ _ Hn)];
      reflexivity.
  - intros s ->. apply or_default_empty_default.
  - intros ->. reflexivity.
Qed.

(** The runs of [getEmailData]: the record after one provider call, or
    [null] after the failure line, whether the client was missing, the
    provider call was rejected, or the message could not be read. *)
Lemma getEmailData_cases (st : State World) (messageId : string) :
  let r := getEmailData gmail messageId st in
  (exists d, result r = Resolved (Some d) /\ events r = [EvGet "me" messageId])
  \/ (exists e,
        result r = Resolved None
        /\ (events r = [fetch_failure messageId e]
            \/ events r = [EvGet "me" messageId; EvRejected e;
                           fetch_failure messageId e]
            \/ events r = [EvGet "me" messageId; fetch_failure messageId e])).
Proof.
  cbv zeta.
  unfold getEmailData, users_messages_get.
  rewrite try_catch_run, bind_run, provider_call_run.
  destruct (gmailClient st) as [accessToken|].
  - destruct (messages_get gmail accessToken "me" messageId (world st))
      as [[email|e] w']; cbn [fst snd result events final rejection].
    + rewrite bind_run.
      destruct (msg_payload email) as [[[headers|]]|];
        cbn [ret throw result events final].
      * rewrite bind_run. cbn [ret part_headers result events final].
        left. eexists. split; reflexivity.
      * rewrite bind_run. cbn [throw part_headers result events final].
        right. exists (TypeError_undefined "find").
        split; [reflexivity|]. right. right. reflexivity.
      * right. exists (TypeError_undefined "headers").
        split; [reflexivity|]. right. right. reflexivity.
    + right. exists e. split; [reflexivity|]. right. left. reflexivity.
  - cbn [result events final].
    right. exists (TypeError_undefined "users").
    split; [reflexivity|]. left. reflexivity.
Qed.

(** [getEmailData] when the provider call is rejected. *)
Lemma getEmailData_rejected (st : State World) (accessToken messageId : string)
    (e : JsError) (w' : World) :
  gmailClient st = Some accessToken ->
  messages_get gmail accessToken "me" messageId (world st) = (Rejected e, w') ->
  getEmailData gmail messageId st
  = {| result := Resolved None;
       events := [EvGet "me" messageId; EvRejected e; fetch_failure messageId e];
       final := {| world := w'; gmailClient := Some accessToken |} |}.
Proof.
  intros Hc Hg.
  unfold getEmailData, users_messages_get.
  rewrite try_catch_run, bind_run, provider_call_run, Hc, Hg.
  reflexivity.
Qed.

(** [getEmailData] when the message fetched has no payload, or a payload
    without headers. *)
Lemma getEmailData_no_headers (st : State World) (accessToken messageId : string)
    (email : GmailMessage) (w' : World) :
  gmailClient st = Some accessToken ->
  messages_get gmail accessToken "me" messageId (world st) = (Resolved email, w') ->
  msg_payload email = None \/ msg_payload email = Some {| part_headers := None |} ->
  exists e,
    getEmailData gmail messageId st
    = {| result := Resolved None;
         events := [EvGet "me" messageId; fetch_failure messageId e];
         final := {| world := w'; gmailClient := Some accessToken |} |}.
Proof.
  intros Hc Hg Hp.
  unfold getEmailData, users_messages_get.
  rewrite try_catch_run, bind_run, provider_call_run, Hc, Hg.
  cbn [fst snd result events final rejection].
  rewrite bind_run.
  destruct Hp as [Hp|Hp]; rewrite Hp; cbn [ret throw result events final].
  - exists (TypeError_undefined "headers"). reflexivity.
  - rewrite bind_run. cbn [throw part_headers result events final].
    exists (TypeError_undefined "find"). reflexivity.
Qed.

(** [getEmailData] when no client is bound. *)
Lemma getEmailData_no_client (st : State World) (messageId : string) :
  gmailClient st = None ->
  getEmailData gmail messageId st
  = {| result := Resolved None;
       events := [fetch_failure messageId (TypeError_undefined "users")];
       final := st |}.
Proof.
  intros Hc.
  unfold getEmailData, users_messages_get.
  rewrite try_catch_run, bind_run, provider_call_run, Hc. reflexivity.
Qed.

(** C9. For every message id, [getEmailData] resolves: either with the
    extracted record, having made the one provider call and logged no
    error; or with [null], having logged the error, whether the client
    was missing, the provider call was rejected, or the message could
    not be read.  In particular a rejected provider call gives [null] and
    its error on the logger.  [getEmailData] never rejects.

    Which of the two it is follows what the provider answered:
    - when the call resolves with a message that carries a header list,
      the result is the record extracted from these headers and from the
      snippet, and nothing is logged;
    - when the call is rejected, the result is [null] and the rejection
      is logged;
    - when the call resolves with a message that has no payload, or no
      headers, the result is [null] and the error is logged;
    - when no client is bound, no call is made, the result is [null] and
      the error is logged. *)
Theorem getEmailData_never_raises (st : State World) (messageId : string) :
  let r := getEmailData gmail messageId st in
  ((exists d, result r = Resolved (Some d) /\ events r = [EvGet "me" messageId])
   \/ (exists e,
         result r = Resolved None
         /\ (events r = [fetch_failure messageId e]
             \/ events r = [EvGet "me" messageId; EvRejected e;
                            fetch_failure messageId e]
             \/ events r = [EvGet "me" messageId; fetch_failure messageId e])))
  /\ (forall a, result r <> Rejected a)
  /\ (forall e, In (EvRejected e) (events r) ->
        result r = Resolved None /\ In (fetch_failure messageId e) (events r))
  /\ (forall accessToken email headers w',
        gmailClient st = Some accessToken ->
        messages_get gmail accessToken "me" messageId (world st)
          = (Resolved email, w') ->
        msg_payload email = Some {| part_headers := Some headers |} ->
        r = {| result :=
                 Resolved (Some
                   {| email_from := or_default (find_header headers "From") "";
                      email_to := or_default (find_header headers "To") "";
                      email_subject :=
                        or_default (find_header headers "Subject") "No Subject";
                      emailContent := or_default (msg_snippet email) "" |});
               events := [EvGet "me" messageId];
               final := {| world := w'; gmailClient := Some accessToken |} |})
  /\ (forall accessToken e w',
        gmailClient st = Some accessToken ->
        messages_get gmail accessToken "me" messageId (world st) = (Rejected e, w') ->
        r = {| result := Resolved None;
               events := [EvGet "me" messageId; EvRejected e;
                          fetch_failure messageId e];
               final := {| world := w'; gmailClient := Some accessToken |} |})
  /\ (forall accessToken email w',
        gmailClient st = Some accessToken ->
        messages_get gmail accessToken "me" messageId (world st)
          = (Resolved email, w') ->
        msg_payload email = None
        \/ msg_payload email = Some {| part_headers := None |} ->
        exists e,
          r = {| result := Resolved None;
                 events := [EvGet "me" messageId; fetch_failure messageId e];
                 final := {| world := w'; gmailClient := Some accessToken |} |})
  /\ (gmailClient st = None ->
      r = {| result := Resolved None;
             events := [fetch_failure messageId (TypeError_undefined "users")];
             final := st |}).
Proof.
  cbv zeta. pose proof (getEmailData_cases st messageId) as H. cbv zeta in H.
  split; [exact H|].
  split.
  { intros a.
    destruct H as [(d & Hr & _)|(e & Hr & _)]; rewrite Hr; discriminate. }
  split.
  { intros e' Hin.
    destruct H as [(d & Hr & He)|(e & Hr & [He|[He|He]])]; rewrite Hr, He;
      rewrite He in Hin; cbn [In] in Hin; unfold fetch_failure, line in Hin;
      repeat (destruct Hin as [Hin|Hin]; try discriminate Hin);
      try contradiction.
    injection Hin as <-. split; [reflexivity|]. cbn. auto. }
  split.
  { intros accessToken email headers w' Hc Hg Hp.
    exact (getEmailData_fetched st accessToken messageId email headers w' Hc Hg Hp). }
  split.
  { intros accessToken e w' Hc Hg.
    exact (getEmailData_rejected st accessToken messageId e w' Hc Hg). }
  split.
  { intros accessToken email w' Hc Hg Hp.
    exact (getEmailData_no_headers st accessToken messageId email w' Hc Hg Hp). }
  exact (getEmailData_no_client st messageId).
Qed.

End Fetching.

(** The example of the specification: a subject "X", from "a", to "b". *)
Example getEmailData_Xab :
  result (getEmailData
            (gmail_with_headers [header "Subject" "X"; header "From" "a"; header "To" "b"])
            "m1" bound)
  = Resolved (Some {| email_from := "a"; email_to := "b"; email_subject := "X";
                      emailContent := "" |}).
Proof. reflexivity. Qed.

(** Header names are matched exactly: "subject" is not "Subject". *)
Example getEmailData_case_sensitive :
  result (getEmailData
            (gmail_with_headers [header "subject" "X"; header "FROM" "a"; header "to" "b"])
            "m1" bound)
  = Resolved (Some {| email_from := ""; email_to := ""; email_subject := "No Subject";
                      emailContent := "" |}).
Proof. reflexivity. Qed.

(** C2 as stated fails: a message whose "Subject" header has the empty
    value is given the subject "No Subject", not the header's value. *)
Lemma getEmailData_empty_subject :
  let r := getEmailData
             (gmail_with_headers [header "Subject" ""; header "From" "a"; header "To" "b"])
             "m1" bound in
  result r = Resolved (Some {| email_from := "a"; email_to := "b";
                               email_subject := "No Subject"; emailContent := "" |})
  /\ result r <> Resolved (Some {| email_from := "a"; email_to := "b";
                                   email_subject := ""; emailContent := "" |}).
Proof. split; [reflexivity | discriminate]. Qed.

Lemma getEmailData_extracts_witness :
  exists r,
    result (getEmailData
              (gmail_with_headers [header "Subject" "X"; header "From" "a"; header "To" "b"])
              "m1" bound) = Resolved (Some r)
    /\ email_subject r = "X" /\ email_from r = "a" /\ email_to r = "b"
    /\ emailContent r = "".
Proof.
  destruct (getEmailData_extracts
              (gmail_with_headers [header "Subject" "X"; header "From" "a"; header "To" "b"])
              bound "token" "m1"
              {| msg_payload :=
                   Some {| part_headers :=
                             Some [header "Subject" "X"; header "From" "a"; header "To" "b"] |};
                 msg_snippet := JUndefined |}
              [header "Subject" "X"; header "From" "a"; header "To" "b"] tt
              eq_refl eq_refl eq_refl)
    as (r & Hr & HS & _ & _ & HF & _ & HT & _ & _ & HC).
  exists r. split; [exact Hr|].
  split.
  { apply HS; [|discriminate].
    exists [], [header "From" "a"; header "To" "b"]. split; [reflexivity|constructor]. }
  split.
  { apply HF. exists [header "Subject" "X"], [header "To" "b"].
    split; [reflexivity|]. repeat constructor. discriminate. }
  split.
  { apply HT. exists [header "Subject" "X"; header "From" "a"], [].
    split; [reflexivity|]. repeat constructor; discriminate. }
  apply HC. reflexivity.
Defined.

(** ** The steps of [processIncomingEmail] *)

Section Steps.
Context {World : Type}.
Variable gmail : Gmail World.

Ltac run_step st :=
  destruct st as [? [?|]];
  cbv [assignLabelToEmail sendReplyEmail markEmailAsRead try_catch
       users_messages_modify users_messages_send gmailClient_users
       bind call ret throw logger_log logger_error emit];
  cbn [gmailClient world result events final app];
  [ match goal with
    | |- context [messages_modify ?g ?c ?u ?i ?b ?x] =>
        destruct (messages_modify g c u i b x) as [[[]|?] ?]
    | |- context [messages_send ?g ?c ?u ?m ?x] =>
        destruct (messages_send g c u m x) as [[?|?] ?]
    end;
    cbn [fst snd rejection result events final app];
    eexists _, _; (split; [reflexivity|]);
    [ left; eexists; reflexivity
    | right;
      match goal with |- context [EvRejected ?x] => exists x end;
      reflexivity ]
  | eexists _, _; split; reflexivity ].

Lemma assignLabelToEmail_run (messageId : string) (labelId : propval)
    (st : State World) :
  exists evs w',
    assignLabelToEmail gmail messageId labelId st
    = {| result := Resolved tt; events := evs;
         final := {| world := w'; gmailClient := gmailClient st |} |}
    /\ step_events (gmailClient st)
         (EvModify "me" messageId (AddLabelIds [labelId]))
         (label_failure messageId) evs.
Proof. run_step st. Qed.

Lemma markEmailAsRead_run (messageId : string) (st : State World) :
  exists evs w',
    markEmailAsRead gmail messageId st
    = {| result := Resolved tt; events := evs;
         final := {| world := w'; gmailClient := gmailClient st |} |}
    /\ step_events (gmailClient st)
         (EvModify "me" messageId (RemoveLabelIds ["UNREAD"]))
         (read_failure messageId) evs.
Proof. run_step st. Qed.

Lemma sendReplyEmail_run (messageId : string) (emailData : ReplyData)
    (st : State World) :
  exists evs w',
    sendReplyEmail gmail messageId emailData st
    = {| result := Resolved tt; events := evs;
         final := {| world := w'; gmailClient := gmailClient st |} |}
    /\ step_events (gmailClient st)
         (EvSend "me"
            (createReplyMessage (reply_to emailData) (reply_from emailData)
               (reply_subject emailData) (reply_text emailData) messageId))
         send_failure evs.
Proof. run_step st. Qed.

End Steps.

(** ** Reading traces *)

Lemma provider_calls_logs (lines : list LogLine) :
  filter is_provider_call (map EvLogger lines) = [].
Proof. induction lines as [|l rest IH]; cbn; [reflexivity | exact IH]. Qed.

Lemma collaborator_calls_logs (lines : list LogLine) :
  filter is_collaborator_call (map EvLogger lines) = [].
Proof. induction lines as [|l rest IH]; cbn; [reflexivity | exact IH]. Qed.

Lemma label_calls_logs (lines : list LogLine) :
  filter is_label_call (map EvLogger lines) = [].
Proof. induction lines as [|l rest IH]; cbn; [reflexivity | exact IH]. Qed.

Lemma queued_app (evs evs' : list Event) :
  queued (evs ++ evs') = (queued evs ++ queued evs')%list.
Proof.
  induction evs as [|ev rest IH]; cbn; [reflexivity|].
  destruct ev; cbn; rewrite IH; reflexivity.
Qed.

Lemma queued_logs (lines : list LogLine) : queued (map EvLogger lines) = [].
Proof. induction lines as [|l rest IH]; cbn; [reflexivity | exact IH]. Qed.

Lemma sent_raw_app (evs evs' : list Event) :
  sent_raw (evs ++ evs') = (sent_raw evs ++ sent_raw evs')%list.
Proof.
  induction evs as [|ev rest IH]; cbn; [reflexivity|].
  destruct ev; cbn; rewrite IH; reflexivity.
Qed.

Lemma sent_raw_logs (lines : list LogLine) : sent_raw (map EvLogger lines) = [].
Proof. induction lines as [|l rest IH]; cbn; [reflexivity | exact IH]. Qed.

Lemma in_logs_inv (ev : Event) (lines : list LogLine) :
  In ev (map EvLogger lines) -> exists l, ev = EvLogger l.
Proof.
  intros H. apply in_map_iff in H as (l & <- & _). exists l. reflexivity.
Qed.

Create Rewrite HintDb trace.
#[local] Hint Rewrite filter_app provider_calls_logs collaborator_calls_logs
  label_calls_logs queued_app queued_logs sent_raw_app sent_raw_logs
  app_nil_r : trace.

(** Membership in a trace built from segments: search the segments. *)
Ltac in_trace :=
  match goal with
  | |- In _ (_ ++ _)%list =>
      apply in_or_app; first [ left; in_trace | right; in_trace ]
  | |- In _ (_ :: _) => first [ left; reflexivity | right; in_trace ]
  end.

(** Case analysis on where an element of a trace built from segments
    lies. *)
Ltac split_in H :=
  repeat match type of H with
  | In _ (_ ++ _)%list => apply in_app_or in H
  | In _ (map EvLogger _) => apply in_logs_inv in H; destruct H as [? H]
  | In _ (_ :: _) => cbn [In] in H
  | In _ [] => destruct H
  | _ \/ _ => destruct H as [H|H]
  | False => destruct H
  end.

Lemma step_events_cases (client : option string) (request : Event)
    (failure : JsError -> Event) (evs : list Event) :
  step_events client request failure evs ->
  (client = None /\ evs = [failure (TypeError_undefined "users")])
  \/ (exists c msg, client = Some c /\ evs = [request; line LvLog msg None])
  \/ (exists c e, client = Some c /\ evs = [request; EvRejected e; failure e]).
Proof.
  destruct client as [c|]; cbn.
  - intros [[msg ->]|[e ->]]; right; [left | right]; eauto.
  - intros ->. left. auto.
Qed.

(** Case analysis on the trace of a step. *)
Ltac step_cases H :=
  apply step_events_cases in H;
  destruct H as [[? ->]|[(? & ? & ? & ->)|(? & ? & ? & ->)]].

(** Inverts a [process_trace] down to explicit lists of events. *)
Ltac trace_cases H :=
  destruct H;
  repeat match goal with
  | L : label_events _ _ _ _ |- _ =>
      unfold label_events in L;
      destruct (prop_truthy (or_null (labelMapping_get _))) eqn:?
  | S : step_events _ _ _ _ |- _ =>
      apply step_events_cases in S;
      destruct S as [[? ?]|[(? & ? & ? & ?)|(? & ? & ? & ?)]]
  end;
  try congruence; subst;
  unfold service_events;
  repeat match goal with
  | O : reply_outcome _ = _ |- _ => rewrite O; clear O
  end;
  cbn [rejection].

Ltac solve_logged :=
  let e := fresh "e" in
  let H := fresh "H" in
  intros e H; split_in H; try discriminate H;
  injection H as <-; eexists;
  unfold label_failure, send_failure, read_failure, process_failure,
    check_failure, fetch_failure;
  in_trace.

Ltac norm_trace :=
  unfold label_failure, send_failure, read_failure, process_failure,
    check_failure, fetch_failure, line;
  repeat (autorewrite with trace;
          cbn [filter is_provider_call is_collaborator_call is_label_call
               queued sent_raw app]).

Ltac solve_nodup :=
  norm_trace;
  repeat (constructor; cbn [In]; try (intuition discriminate)).

(** ** Processing a message *)

Section Processing.
Context {World : Type}.
Variable gmail : Gmail World.
Variable openaiService : OpenaiService World.

Ltac next_service op H :=
  match goal with
  | |- context [service_call ?ev (op ?s ?c) ?st] =>
      let r := fresh "r" in
      let w := fresh "w" in
      destruct (op s c (world st)) as [r w] eqn:H;
      rewrite (service_call_run ev (op s c) st r w H);
      cbn [result events final world gmailClient]
  end.

Ltac next_line :=
  rewrite bind_run, logger_log_run; cbn [result events final world gmailClient].

(** [processIncomingEmail] always resolves, leaves the client as it
    was, and its trace is one of [process_trace]. *)
Lemma processIncomingEmail_run (messageId : string) (emailData : EmailData)
    (st : State World) :
  exists evs w',
    processIncomingEmail gmail openaiService messageId emailData st
    = {| result := Resolved tt; events := evs;
         final := {| world := w'; gmailClient := gmailClient st |} |}
    /\ process_trace openaiService (gmailClient st) messageId emailData
         (world st) evs.
Proof.
  unfold processIncomingEmail. rewrite try_catch_run.
  rewrite bind_run. next_service (@analyzeEmailContext World) H1.
  destruct (reply_outcome r) as [context|e] eqn:O1.
  2:{ cbn [result events final]. eexists _, _. split; [reflexivity|].
      eapply trace_analyze_rejected; eauto. }
  next_line.
  rewrite bind_run. next_service (@categorizeEmailContent World) H2.
  destruct (reply_outcome r0) as [category|e] eqn:O2.
  2:{ cbn [result events final]. eexists _, _. split; [reflexivity|].
      eapply trace_categorize_rejected; eauto.
      rewrite <- !app_assoc. reflexivity. }
  next_line.
  rewrite bind_run.
  assert (Hlabel : exists label_evs w3,
    (if prop_truthy (or_null (labelMapping_get category))
     then assignLabelToEmail gmail messageId (or_null (labelMapping_get category))
     else logger_warn ("No label found for category: " ++ tpl category) None)
      {| world := w0; gmailClient := gmailClient st |}
    = {| result := Resolved tt; events := label_evs;
         final := {| world := w3; gmailClient := gmailClient st |} |}
    /\ label_events (gmailClient st) messageId category label_evs).
  { unfold label_events.
    destruct (prop_truthy (or_null (labelMapping_get category))).
    - apply (assignLabelToEmail_run gmail messageId _
               {| world := w0; gmailClient := gmailClient st |}).
    - eexists _, _. split; reflexivity. }
  destruct Hlabel as (label_evs & w3 & -> & Hlabel).
  cbn [result events final world gmailClient].
  rewrite bind_run. next_service (@generateEmailReply World) H3.
  destruct (reply_outcome r1) as [replyContent|e] eqn:O3.
  2:{ cbn [result events final]. eexists _, _. split; [reflexivity|].
      eapply trace_generate_rejected; eauto.
      rewrite <- !app_assoc. reflexivity. }
  next_line.
  rewrite bind_run.
  destruct (sendReplyEmail_run gmail messageId
              {| reply_from := email_from emailData; reply_to := email_to emailData;
                 reply_subject := email_subject emailData;
                 reply_text := replyContent |}
              {| world := w1; gmailClient := gmailClient st |})
    as (send_evs & w5 & -> & Hsend).
  cbn [result events final world gmailClient reply_from reply_to reply_subject
       reply_text] in *.
  destruct (markEmailAsRead_run gmail messageId
              {| world := w5; gmailClient := gmailClient st |})
    as (read_evs & w6 & -> & Hread).
  cbn [result events final world gmailClient] in *.
  eexists _, _. split; [reflexivity|].
  eapply trace_completed; eauto.
Qed.

End Processing.

Lemma provider_calls_queue (messages : list MessageRef) :
  filter is_provider_call
    (map (fun message =>
       EvQueueAdd "processEmail" (MessageIdData (ref_id message)) None) messages)
  = [].
Proof. induction messages as [|m rest IH]; cbn; [reflexivity | exact IH]. Qed.

Lemma not_rejected_queue (e : JsError) (messages : list MessageRef) :
  ~ In (EvRejected e)
      (map (fun message =>
         EvQueueAdd "processEmail" (MessageIdData (ref_id message)) None) messages).
Proof.
  intros H. apply in_map_iff in H as (m & Hm & _). discriminate Hm.
Qed.

Section Containment.
Context {World : Type}.
Variable gmail : Gmail World.
Variable openaiService : OpenaiService World.

(** The runs of [checkUnreadEmails]. *)
Lemma checkUnreadEmails_cases (st : State World) :
  (gmailClient st = None
   /\ checkUnreadEmails gmail st
      = {| result := Resolved tt; events := []; final := st |})
  \/ (exists messages st',
        checkUnreadEmails gmail st
        = {| result := Resolved tt;
             events := EvList "me" "is:unread"
                       :: map (fun message =>
                            EvQueueAdd "processEmail"
                              (MessageIdData (ref_id message)) None) messages;
             final := st' |})
  \/ (exists e st',
        checkUnreadEmails gmail st
        = {| result := Resolved tt;
             events := [EvList "me" "is:unread"; EvRejected e; check_failure e];
             final := st' |}).
Proof.
  destruct (gmailClient st) as [accessToken|] eqn:Hc.
  - destruct (messages_list gmail accessToken "me" "is:unread" (world st))
      as [[data|e] w'] eqn:Hl.
    + right. left. eexists _, _.
      apply (checkUnreadEmails_listed gmail st accessToken data w' Hc Hl).
    + right. right. exists e.
      unfold checkUnreadEmails. rewrite try_catch_run, Hc.
      unfold users_messages_list. rewrite bind_run, provider_call_run, Hc, Hl.
      cbn [fst snd result events final rejection].
      eexists. reflexivity.
  - left. split; [reflexivity|].
    unfold checkUnreadEmails. rewrite try_catch_run, Hc. reflexivity.
Qed.

Lemma processIncomingEmail_contained (messageId : string) (emailData : EmailData)
    (st : State World) :
  contained (processIncomingEmail gmail openaiService messageId emailData st).
Proof.
  destruct (processIncomingEmail_run gmail openaiService messageId emailData st)
    as (evs & w' & -> & Htrace).
  unfold contained. cbn [result events].
  split; [eexists; reflexivity|].
  trace_cases Htrace; (split; [solve_logged | solve_nodup]).
Qed.

Lemma steps_contained (messageId : string) (labelId : propval)
    (replyData : ReplyData) (st : State World) :
  contained (assignLabelToEmail gmail messageId labelId st)
  /\ contained (sendReplyEmail gmail messageId replyData st)
  /\ contained (markEmailAsRead gmail messageId st).
Proof.
  destruct (assignLabelToEmail_run gmail messageId labelId st)
    as (evs1 & w1 & -> & H1).
  destruct (sendReplyEmail_run gmail messageId replyData st)
    as (evs2 & w2 & -> & H2).
  destruct (markEmailAsRead_run gmail messageId st)
    as (evs3 & w3 & -> & H3).
  unfold contained. cbn [result events].
  step_cases H1; step_cases H2; step_cases H3;
    repeat split; try (eexists; reflexivity); try solve_logged; solve_nodup.
Qed.

Lemma checkUnreadEmails_contained (st : State World) :
  contained (checkUnreadEmails gmail st).
Proof.
  unfold contained.
  destruct (checkUnreadEmails_cases st)
    as [[_ ->]|[(messages & st' & ->)|(e & st' & ->)]]; cbn [result events].
  - repeat split; [eexists; reflexivity | intros e [] | constructor].
  - repeat split; [eexists; reflexivity | |].
    + intros e [H|H]; [discriminate H|].
      destruct (not_rejected_queue e messages H).
    + cbn [filter is_provider_call]. rewrite provider_calls_queue.
      repeat constructor. intros [].
  - repeat split; [eexists; reflexivity | solve_logged | solve_nodup].
Qed.

Lemma getEmailData_contained (messageId : string) (st : State World) :
  contained (getEmailData gmail messageId st).
Proof.
  unfold contained.
  pose proof (getEmailData_cases gmail st messageId) as H. cbv zeta in H.
  destruct H as [(d & -> & ->)|(e & -> & [ -> | [ -> | -> ] ])];
    repeat split; try (eexists; reflexivity); try solve_logged; solve_nodup.
Qed.

(** C8. Each operation of the service that calls the mail provider
    ([checkUnreadEmails], [getEmailData], [processIncomingEmail], and the
    send, label and mark-read steps inside it) resolves whatever the
    provider and the classifier do: every rejected call is reported on
    the logger at level error, nothing is rejected to the caller, and no
    provider request is issued a second time. *)
Theorem failures_contained (messageId : string) (emailData : EmailData)
    (labelId : propval) (replyData : ReplyData) (st : State World) :
  contained (checkUnreadEmails gmail st)
  /\ contained (getEmailData gmail messageId st)
  /\ contained (processIncomingEmail gmail openaiService messageId emailData st)
  /\ contained (sendReplyEmail gmail messageId replyData st)
  /\ contained (assignLabelToEmail gmail messageId labelId st)
  /\ contained (markEmailAsRead gmail messageId st).
Proof.
  destruct (steps_contained messageId labelId replyData st) as (Hl & Hs & Hr).
  split; [apply checkUnreadEmails_contained|].
  split; [apply getEmailData_contained|].
  split; [apply processIncomingEmail_contained|].
  auto.
Qed.

Lemma url_decode_createReplyMessage (from to subject : string) (text : jsval)
    (messageId : string) :
  addressed from to (createReplyMessage from to subject text messageId).
Proof.
  unfold addressed, createReplyMessage. rewrite url_decode_base64url.
  eexists. reflexivity.
Qed.

(** C10. Every reply that [processIncomingEmail] hands to the provider
    is [createReplyMessage] applied to the record's [to] as sender and
    the record's [from] as recipient: decoded, its "From:" line carries
    the original [to] and its "To:" line the original [from].
    [sendReplyEmail] itself, with a client bound, sends exactly the
    message built with its [to] and [from] exchanged. *)
Theorem reply_goes_back_to_sender (messageId : string) (emailData : EmailData)
    (st : State World) :
  Forall (fun raw =>
            (exists replyContent,
               raw = createReplyMessage (email_to emailData) (email_from emailData)
                       (email_subject emailData) replyContent messageId)
            /\ addressed (email_to emailData) (email_from emailData) raw)
    (sent_raw (events
       (processIncomingEmail gmail openaiService messageId emailData st)))
  /\ (forall replyData accessToken,
        gmailClient st = Some accessToken ->
        sent_raw (events (sendReplyEmail gmail messageId replyData st))
        = [createReplyMessage (reply_to replyData) (reply_from replyData)
             (reply_subject replyData) (reply_text replyData) messageId]).
Proof.
  split.
  - destruct (processIncomingEmail_run gmail openaiService messageId emailData st)
      as (evs & w' & -> & Htrace).
    cbn [events].
    trace_cases Htrace; norm_trace; repeat constructor;
      try (eexists; reflexivity); apply url_decode_createReplyMessage.
  - intros replyData accessToken Hc.
    destruct (sendReplyEmail_run gmail messageId replyData st)
      as (evs & w' & -> & H).
    cbn [events]. step_cases H; try congruence; reflexivity.
Qed.

Lemma queued_enqueue_service_jobs (messages : list MessageRef) :
  Forall service_job (map process_job messages).
Proof.
  induction messages as [|m rest IH]; cbn; constructor; [|exact IH].
  right. eexists. reflexivity.
Qed.

(** C6, as the code has it.  Whatever operation of the service is
    invoked, every job it hands to the queue is either
    "checkUnreadEmails" with the payload [{}] and a delay of 60000
    milliseconds, or "processEmail" with a payload [{ messageId }] and no
    delay; [scheduleEmailChecking] queues exactly the first, sixty
    seconds ahead, and [checkUnreadEmails] queues the second for each
    message the provider lists. *)
Theorem queue_jobs (op : Operation) (st : State World) :
  Forall service_job (queued (events (invoke gmail openaiService op st)))
  /\ queued (events (invoke gmail openaiService OpScheduleEmailChecking st))
     = [("checkUnreadEmails", EmptyData, Some (60 * 1000)%N)]
  /\ (forall accessToken messages w',
        gmailClient st = Some accessToken ->
        messages_list gmail accessToken "me" "is:unread" (world st)
          = (Resolved {| list_messages := Some messages |}, w') ->
        queued (events (invoke gmail openaiService OpCheckUnreadEmails st))
        = map (fun message =>
                 ("processEmail", MessageIdData (ref_id message), None))
            messages).
Proof.
  split; [|split].
  - destruct op as [accessToken| | |messageId|messageId emailData];
      cbn [invoke].
    + constructor.
    + repeat constructor.
    + destruct (checkUnreadEmails_cases st)
        as [[_ ->]|[(messages & st' & ->)|(e & st' & ->)]]; cbn [events].
      * constructor.
      * cbn [queued]. rewrite queued_enqueue.
        apply queued_enqueue_service_jobs.
      * constructor.
    + unfold discard. rewrite bind_run.
      pose proof (getEmailData_cases gmail st messageId) as H. cbv zeta in H.
      destruct H as [(d & -> & ->)|(e & -> & [ -> | [ -> | -> ] ])];
        cbn [events ret]; constructor.
    + destruct (processIncomingEmail_run gmail openaiService messageId emailData st)
        as (evs & w' & -> & Htrace).
      cbn [events]. trace_cases Htrace; norm_trace; constructor.
  - reflexivity.
  - intros accessToken messages w' Hc Hl. cbn [invoke].
    rewrite (checkUnreadEmails_listed gmail st accessToken _ w' Hc Hl).
    cbn [events list_messages queued]. apply queued_enqueue.
Qed.

End Containment.

(** ** The label lookup *)

Section LabelLookup.
Context {World : Type}.
Variable gmail : Gmail World.
Variable openaiService : OpenaiService World.

(** X13. The label lookup on the keys the mapping has and on the keys no
    object has: when the classifier answers [category], a category of
    the mapping leads to one label call with the mapped identifier, and
    a category that is neither in the mapping nor a member of
    [Object.prototype] leads to the warning and to no label call. *)
Lemma label_lookup (messageId : string) (emailData : EmailData)
    (st : State World) (r1 r2 : Reply) (w1 w2 : World)
    (context category : jsval) :
  analyzeEmailContext openaiService (emailContent emailData) (world st) = (r1, w1) ->
  reply_outcome r1 = Resolved context ->
  categorizeEmailContent openaiService (emailContent emailData) w1 = (r2, w2) ->
  reply_outcome r2 = Resolved category ->
  let evs := events (processIncomingEmail gmail openaiService messageId emailData st) in
  (forall labelId accessToken,
     own_property labelMapping (tpl category) = Some labelId ->
     gmailClient st = Some accessToken ->
     filter is_label_call evs
     = [EvModify "me" messageId (AddLabelIds [PString labelId])])
  /\ (own_property labelMapping (tpl category) = None ->
      mem_string (tpl category) object_prototype_keys = false ->
      filter is_label_call evs = [] /\ In (no_label_warning category) evs).
Proof.
  intros H1 O1 H2 O2. cbv zeta.
  destruct (processIncomingEmail_run gmail openaiService messageId emailData st)
    as (evs & w' & -> & Htrace).
  cbn [events].
  assert (Hown : forall labelId,
            own_property labelMapping (tpl category) = Some labelId ->
            or_null (labelMapping_get category) = PString labelId
            /\ prop_truthy (PString labelId) = true).
  { intros labelId Hl. unfold labelMapping_get. rewrite Hl.
    unfold labelMapping in Hl. cbn [own_property] in Hl.
    repeat match type of Hl with
    | context [String.eqb ?a ?b] => destruct (String.eqb a b)
    end; try discriminate Hl; injection Hl as <-;
    split; reflexivity. }
  assert (Hnone : own_property labelMapping (tpl category) = None ->
            mem_string (tpl category) object_prototype_keys = false ->
            prop_truthy (or_null (labelMapping_get category)) = false).
  { intros Hl Hm. unfold labelMapping_get. rewrite Hl, Hm. reflexivity. }
  destruct Htrace as
    [ r1' w1' e A1 B1 E
    | r1' r2' w1' w2' context' e A1 B1 A2 B2 E
    | r1' r2' r3 w1' w2' w3 w4 context' category' label_evs e
        A1 B1 A2 B2 L A3 B3 E
    | r1' r2' r3 w1' w2' w3 w4 context' category' replyContent
        label_evs send_evs read_evs A1 B1 A2 B2 L A3 B3 S R E ];
    rewrite H1 in A1; injection A1 as <- <-; try congruence;
    rewrite H2 in A2; injection A2 as <- <-; try congruence;
    rewrite O2 in B2; injection B2 as <-;
    (split;
     [ intros labelId accessToken Hl Hc;
       destruct (Hown labelId Hl) as [Hv Ht];
       unfold label_events in L; cbv zeta in L; rewrite Hv, Ht in L
     | intros Hl Hm; unfold label_events in L; cbv zeta in L;
       rewrite (Hnone Hl Hm) in L; subst label_evs ]).
  all: repeat match goal with
       | S : step_events _ _ _ _ |- _ =>
           apply step_events_cases in S;
           destruct S as [[? ?]|[(? & ? & ? & ?)|(? & ? & ? & ?)]]
       end; try congruence; subst; unfold service_events.
  all: try (split; [|unfold no_label_warning; in_trace]).
  all: unfold label_failure, send_failure, read_failure, process_failure, line;
       repeat (autorewrite with trace;
               cbn [filter is_label_call app rejection]);
       try reflexivity.
  all: repeat match goal with
       | |- context [rejection ?o] => destruct o; cbn [rejection]
       end;
       repeat (autorewrite with trace; cbn [filter is_label_call app]);
       reflexivity.
Qed.

End LabelLookup.

(** The category "Interested" is labelled with its mapped identifier. *)
Example label_lookup_Interested :
  filter is_label_call
    (events (processIncomingEmail quiet_gmail (answering "ctx" "Interested" "Hi")
               "m1" sample_email bound))
  = [EvModify "me" "m1" (AddLabelIds [PString "Label_3035777443514222121"])].
Proof. vm_compute. reflexivity. Qed.

(** A category no object knows is skipped with a warning. *)
Example label_lookup_Spam :
  let evs := events (processIncomingEmail quiet_gmail (answering "ctx" "Spam" "Hi")
                       "m1" sample_email bound) in
  filter is_label_call evs = []
  /\ In (no_label_warning (JString "Spam")) evs.
Proof. vm_compute. intuition. Qed.

(** C4 fails on the code: the lookup [this.labelMapping[category]] also
    finds the members every object inherits.  For the category
    "constructor", which is outside the mapping, a label call is made,
    with the inherited member in place of a label identifier, and no
    warning is logged. *)
Theorem label_lookup_inherited :
  let evs := events (processIncomingEmail quiet_gmail
                       (answering "ctx" "constructor" "Hi")
                       "m1" sample_email bound) in
  own_property labelMapping "constructor" = None
  /\ filter is_label_call evs
     = [EvModify "me" "m1" (AddLabelIds [PInherited "constructor"])]
  /\ ~ In (no_label_warning (JString "constructor")) evs.
Proof.
  vm_compute. split; [reflexivity|]. split; [reflexivity|].
  intros H. repeat (destruct H as [H|H]; [discriminate H|]). exact H.
Qed.

(** ** The steps of a run fail independently *)

Section Independence.
Context {World : Type}.
Variable gmail : Gmail World.
Variable lm : LanguageModel World.
Variable report : JsError -> LogLine.

(** A method of [OpenaiService_spec] never rejects: it resolves with the
    provider's text, or with [undefined] after logging the failure. *)
Lemma guarded_resolves
    (provider : string -> World -> Outcome string * World)
    (text : string) (w w' : World) (r : Reply) :
  guarded report provider text w = (r, w') ->
  (exists s, provider text w = (Resolved s, w')
             /\ r = {| reply_logs := []; reply_outcome := Resolved (JString s) |})
  \/ (exists e, provider text w = (Rejected e, w')
                /\ r = {| reply_logs := [report e];
                          reply_outcome := Resolved JUndefined |}).
Proof.
  unfold guarded. destruct (provider text w) as [[s|e] w0]; intros H;
    injection H as <- <-; [left | right]; eauto.
Qed.

Lemma steps_caught (messageId : string) (labelId : propval)
    (replyData : ReplyData) (st : State World) :
  caught_by (label_failure messageId)
    (assignLabelToEmail gmail messageId labelId st)
  /\ caught_by send_failure (sendReplyEmail gmail messageId replyData st)
  /\ caught_by (read_failure messageId) (markEmailAsRead gmail messageId st).
Proof.
  destruct (assignLabelToEmail_run gmail messageId labelId st)
    as (evs1 & w1 & -> & H1).
  destruct (sendReplyEmail_run gmail messageId replyData st)
    as (evs2 & w2 & -> & H2).
  destruct (markEmailAsRead_run gmail messageId st)
    as (evs3 & w3 & -> & H3).
  unfold caught_by. cbn [result events].
  step_cases H1; step_cases H2; step_cases H3;
    repeat split;
    intros e' Hin; split_in Hin; try discriminate Hin;
    injection Hin as <-; in_trace.
Qed.

(** C3. With the classifier of the specification, whose methods keep
    their failures to themselves, and a client bound:
    - each of the label, send and mark-read steps resolves and logs a
      rejection of its provider call with its own failure line;
    - [processIncomingEmail] resolves;
    - whatever the provider and the language model answer to any call,
      the run makes the same calls in the same order: analysis,
      categorisation, the label call when the lookup finds one, reply
      generation, one send and one mark-read;
    - when reply generation fails, the classifier logs the failure and
      the reply is sent with an undefined text;
    - the only labels the run ever removes are ["UNREAD"]: a label that
      was applied is not taken back when a later step fails. *)
Theorem steps_fail_independently (messageId : string) (emailData : EmailData)
    (st : State World) (accessToken : string) :
  gmailClient st = Some accessToken ->
  let r := processIncomingEmail gmail (OpenaiService_spec report lm) messageId
             emailData st in
  let text := emailContent emailData in
  (forall labelId replyData st',
     caught_by (label_failure messageId)
       (assignLabelToEmail gmail messageId labelId st')
     /\ caught_by send_failure (sendReplyEmail gmail messageId replyData st')
     /\ caught_by (read_failure messageId) (markEmailAsRead gmail messageId st'))
  /\ result r = Resolved tt
  /\ (exists category replyContent,
        filter is_collaborator_call (events r)
        = ([EvAnalyze text; EvCategorize text]
           ++ (if prop_truthy (or_null (labelMapping_get category))
               then [EvModify "me" messageId
                       (AddLabelIds [or_null (labelMapping_get category)])]
               else [])
           ++ [EvGenerate text;
               EvSend "me"
                 (createReplyMessage (email_to emailData) (email_from emailData)
                    (email_subject emailData) replyContent messageId);
               EvModify "me" messageId (RemoveLabelIds ["UNREAD"])])%list)
  /\ ((forall w, exists e w', lm_generate lm text w = (Rejected e, w')) ->
      (exists e, In (EvLogger (report e)) (events r))
      /\ sent_raw (events r)
         = [createReplyMessage (email_to emailData) (email_from emailData)
              (email_subject emailData) JUndefined messageId])
  /\ (forall userId id ids,
        In (EvModify userId id (RemoveLabelIds ids)) (events r) ->
        ids = ["UNREAD"]).
Proof.
  intros Hc. cbv zeta.
  split; [intros; apply steps_caught|].
  destruct (processIncomingEmail_run gmail (OpenaiService_spec report lm)
              messageId emailData st) as (evs & w' & -> & Htrace).
  cbn [result events]. split; [reflexivity|].
  rewrite Hc in Htrace.
  destruct Htrace as
    [ r1 w1 e A1 B1 E
    | r1 r2 w1 w2 context e A1 B1 A2 B2 E
    | r1 r2 r3 w1 w2 w3 w4 context category label_evs e
        A1 B1 A2 B2 L A3 B3 E
    | r1 r2 r3 w1 w2 w3 w4 context category replyContent
        label_evs send_evs read_evs A1 B1 A2 B2 L A3 B3 S R E ];
    cbn [OpenaiService_spec analyzeEmailContext categorizeEmailContent
         generateEmailReply] in *;
    repeat match goal with
    | A : guarded _ _ _ _ = _ |- _ =>
        apply guarded_resolves in A;
        destruct A as [(? & ? & ->)|(? & ? & ->)]
    end;
    cbn [reply_outcome reply_logs] in *; try discriminate.
  all: injection B1 as <-; injection B2 as <-; injection B3 as <-.
  all: unfold label_events in L; cbv zeta in L;
    match type of L with
    | context [prop_truthy ?v] => destruct (prop_truthy v) eqn:Ht
    end;
    [ step_cases L | subst label_evs ]; step_cases S; step_cases R;
    try congruence; subst evs; unfold service_events;
    cbn [reply_outcome reply_logs rejection map].
  all: split;
    [ eexists _, _; rewrite ?Ht;
      unfold label_failure, send_failure, read_failure, line;
      cbn [filter is_collaborator_call app]; rewrite ?Ht; reflexivity
    | ].
  all: split;
    [ intros Hfail;
      first
        [ match goal with
          | H : lm_generate lm _ ?w = (Resolved _, _) |- _ =>
              destruct (Hfail w) as (? & ? & Hrej); congruence
          end
        | split;
          [ match goal with
            | |- context [EvLogger (report ?e)] => exists e; in_trace
            end
          | unfold label_failure, send_failure, read_failure, line;
            cbn [sent_raw app]; reflexivity ] ]
    | ].
  all: intros userId id ids Hin; split_in Hin;
    unfold label_failure, send_failure, read_failure, line in Hin;
    try discriminate Hin; injection Hin as _ _ <-; reflexivity.
Qed.

End Independence.

(** ** Concrete runs *)

Lemma getEmailData_never_raises_witness :
  (let r := getEmailData failing_gmail "m1" bound in
   result r = Resolved None /\ In (fetch_failure "m1" an_error) (events r))
  /\ getEmailData failing_gmail "m1" bound
     = {| result := Resolved None;
          events := [EvGet "me" "m1"; EvRejected an_error;
                     fetch_failure "m1" an_error];
          final := bound |}
  /\ getEmailData
       (gmail_with_headers [header "Subject" "X"; header "From" "a"; header "To" "b"])
       "m1" bound
     = {| result := Resolved (Some {| email_from := "a"; email_to := "b";
                                      email_subject := "X"; emailContent := "" |});
          events := [EvGet "me" "m1"];
          final := bound |}
  /\ (exists e,
        getEmailData quiet_gmail "m1" bound
        = {| result := Resolved None;
             events := [EvGet "me" "m1"; fetch_failure "m1" e];
             final := bound |})
  /\ getEmailData quiet_gmail "m1" unbound
     = {| result := Resolved None;
          events := [fetch_failure "m1" (TypeError_undefined "users")];
          final := unbound |}.
Proof.
  split.
  { destruct (getEmailData_never_raises failing_gmail bound "m1")
      as (_ & _ & H & _).
    apply (H an_error). cbn. auto. }
  split.
  { destruct (getEmailData_never_raises failing_gmail bound "m1")
      as (_ & _ & _ & _ & H & _).
    apply (H "token" an_error tt); reflexivity. }
  split.
  { destruct (getEmailData_never_raises
                (gmail_with_headers
                   [header "Subject" "X"; header "From" "a"; header "To" "b"])
                bound "m1") as (_ & _ & _ & H & _).
    apply (H "token"
             {| msg_payload :=
                  Some {| part_headers :=
                            Some [header "Subject" "X"; header "From" "a";
                                  header "To" "b"] |};
                msg_snippet := JUndefined |}
             [header "Subject" "X"; header "From" "a"; header "To" "b"] tt);
      reflexivity. }
  split.
  { destruct (getEmailData_never_raises quiet_gmail bound "m1")
      as (_ & _ & _ & _ & _ & H & _).
    apply (H "token" {| msg_payload := None; msg_snippet := JUndefined |} tt);
      [reflexivity | reflexivity | left; reflexivity]. }
  destruct (getEmailData_never_raises quiet_gmail unbound "m1")
    as (_ & _ & _ & _ & _ & _ & H).
  apply H. reflexivity.
Defined.

Lemma steps_fail_independently_witness :
  let r := processIncomingEmail no_send_gmail
             (OpenaiService_spec report_error mute_model)
             "m1" sample_email bound in
  result r = Resolved tt
  /\ (exists e, In (EvLogger (report_error e)) (events r))
  /\ sent_raw (events r)
     = [createReplyMessage "me@example.com" "alice@example.com" "Offer"
          JUndefined "m1"]
  /\ (forall userId id ids,
        In (EvModify userId id (RemoveLabelIds ids)) (events r) -> ids = ["UNREAD"]).
Proof.
  destruct (steps_fail_independently no_send_gmail mute_model report_error
              "m1" sample_email bound "token" eq_refl)
    as (_ & Hres & _ & Hundef & Hkeep).
  split; [exact Hres|].
  rewrite <- and_assoc. split; [|exact Hkeep].
  apply Hundef. intros w. exists an_error, w. reflexivity.
Defined.

Lemma reply_goes_back_to_sender_witness :
  sent_raw (events (sendReplyEmail quiet_gmail "m1"
                      {| reply_from := "alice@example.com";
                         reply_to := "me@example.com";
                         reply_subject := "Offer"; reply_text := JString "Hi" |}
                      bound))
  = [createReplyMessage "me@example.com" "alice@example.com" "Offer"
       (JString "Hi") "m1"].
Proof.
  destruct (reply_goes_back_to_sender quiet_gmail (answering "ctx" "Interested" "Hi")
              "m1" sample_email bound) as (_ & H).
  apply (H {| reply_from := "alice@example.com"; reply_to := "me@example.com";
              reply_subject := "Offer"; reply_text := JString "Hi" |} "token").
  reflexivity.
Defined.

Lemma queue_jobs_witness :
  queued (events (invoke three_unread (answering "ctx" "Interested" "Hi")
                    OpCheckUnreadEmails bound))
  = [ ("processEmail", MessageIdData "m1", None);
      ("processEmail", MessageIdData "m2", None);
      ("processEmail", MessageIdData "m3", None) ].
Proof.
  destruct (queue_jobs three_unread (answering "ctx" "Interested" "Hi")
              OpCheckUnreadEmails bound) as (_ & _ & H).
  apply (H "token" [ {| ref_id := "m1" |}; {| ref_id := "m2" |}; {| ref_id := "m3" |} ] tt);
    reflexivity.
Defined.

(** The reply of a concrete run, decoded: it goes from the original
    recipient to the original sender. *)
Example reply_to_alice :
  map Base64.url_decode
    (sent_raw (events (processIncomingEmail quiet_gmail
                         (answering "ctx" "Interested" "Hi")
                         "m1" sample_email bound)))
  = [Some (reply_block "me@example.com" "alice@example.com" "Offer" "Hi" "m1")].
Proof. vm_compute. reflexivity. Qed.

(** C6 as stated fails: the job [scheduleEmailChecking] queues is named
    "checkUnreadEmails" and the jobs [checkUnreadEmails] queues are named
    "processEmail"; no job is named "check-unread" or "process-email". *)
Lemma queue_job_names :
  map job_name
    (queued (events (invoke three_unread (answering "ctx" "Interested" "Hi")
                       OpScheduleEmailChecking bound)))
  = ["checkUnreadEmails"]
  /\ map job_name
       (queued (events (invoke three_unread (answering "ctx" "Interested" "Hi")
                          OpCheckUnreadEmails bound)))
     = ["processEmail"; "processEmail"; "processEmail"]
  /\ "checkUnreadEmails" <> "check-unread"
  /\ "processEmail" <> "process-email".
Proof. repeat split; try reflexivity; discriminate. Qed.

(** * Further properties *)

(** ** Polling: failures, the session, the earlier revision *)

Section PollingMore.
Context {World : Type}.
Variable gmail : Gmail World.

Lemma checkUnreadEmails_rejected (st : State World) (accessToken : string)
    (e : JsError) (w' : World) :
  gmailClient st = Some accessToken ->
  messages_list gmail accessToken "me" "is:unread" (world st) = (Rejected e, w') ->
  checkUnreadEmails gmail st
  = {| result := Resolved tt;
       events := [EvList "me" "is:unread"; EvRejected e; check_failure e];
       final := {| world := w'; gmailClient := Some accessToken |} |}.
Proof.
  intros Hc Hl.
  unfold checkUnreadEmails. rewrite try_catch_run, Hc.
  unfold users_messages_list. rewrite bind_run, provider_call_run, Hc, Hl.
  reflexivity.
Qed.

(** X2. With a client bound, [checkUnreadEmails] queues nothing when the
    list call is rejected, and then logs the error after the one call; it
    queues nothing either, and logs nothing, when the provider answers
    without a [messages] field or with an empty list. *)
Theorem checkUnreadEmails_queues_nothing (st : State World) (accessToken : string) :
  gmailClient st = Some accessToken ->
  (forall e w',
     messages_list gmail accessToken "me" "is:unread" (world st) = (Rejected e, w') ->
     checkUnreadEmails gmail st
     = {| result := Resolved tt;
          events := [EvList "me" "is:unread"; EvRejected e; check_failure e];
          final := {| world := w'; gmailClient := Some accessToken |} |})
  /\ (forall data w',
        messages_list gmail accessToken "me" "is:unread" (world st)
          = (Resolved data, w') ->
        list_messages data = None \/ list_messages data = Some [] ->
        checkUnreadEmails gmail st
        = {| result := Resolved tt; events := [EvList "me" "is:unread"];
             final := {| world := w'; gmailClient := Some accessToken |} |}).
Proof.
  intros Hc. split.
  - intros e w' Hl. exact (checkUnreadEmails_rejected st accessToken e w' Hc Hl).
  - intros data w' Hl Hnone.
    rewrite (checkUnreadEmails_listed gmail st accessToken data w' Hc Hl).
    destruct Hnone as [-> | ->]; reflexivity.
Qed.

(** X1. Binding a session and then polling: after
    [initializeGmailClient t], [checkUnreadEmails] does not return early;
    it makes the one list call, with the token [t], whatever was bound
    before.  When the session is bound twice, the later token is the one
    used. *)
Theorem initialize_then_check (st : State World) (t0 t : string) :
  let poll := bind (initializeGmailClient t) (fun _ => checkUnreadEmails gmail) in
  let twice := bind (initializeGmailClient t0) (fun _ => poll) in
  (result (poll st) = Resolved tt
   /\ filter is_provider_call (events (poll st)) = [EvList "me" "is:unread"]
   /\ final (poll st)
      = {| world := snd (messages_list gmail t "me" "is:unread" (world st));
           gmailClient := Some t |})
  /\ poll st = twice st.
Proof.
  cbv zeta. split.
  - rewrite bind_run. cbn [initializeGmailClient result events final app].
    destruct (messages_list gmail t "me" "is:unread" (world st))
      as [[data|e] w'] eqn:Hl.
    + rewrite (checkUnreadEmails_listed gmail
                 {| world := world st; gmailClient := Some t |} t data w' eq_refl Hl).
      cbn [result events final filter is_provider_call snd].
      rewrite provider_calls_queue. auto.
    + rewrite (checkUnreadEmails_rejected
                 {| world := world st; gmailClient := Some t |} t e w' eq_refl Hl).
      cbn. auto.
  - rewrite !bind_run. reflexivity.
Qed.

(** The runs of [checkUnreadEmails], with the state each leaves. *)
Lemma checkUnreadEmails_runs (st : State World) :
  (gmailClient st = None
   /\ checkUnreadEmails gmail st
      = {| result := Resolved tt; events := []; final := st |})
  \/ (exists accessToken data w',
        gmailClient st = Some accessToken
        /\ messages_list gmail accessToken "me" "is:unread" (world st)
           = (Resolved data, w')
        /\ checkUnreadEmails gmail st
           = {| result := Resolved tt;
                events := EvList "me" "is:unread"
                          :: map (fun message =>
                               EvQueueAdd "processEmail"
                                 (MessageIdData (ref_id message)) None)
                               (match list_messages data with
                                | Some l => l
                                | None => []
                                end);
                final := {| world := w'; gmailClient := Some accessToken |} |})
  \/ (exists accessToken e w',
        gmailClient st = Some accessToken
        /\ messages_list gmail accessToken "me" "is:unread" (world st)
           = (Rejected e, w')
        /\ checkUnreadEmails gmail st
           = {| result := Resolved tt;
                events := [EvList "me" "is:unread"; EvRejected e; check_failure e];
                final := {| world := w'; gmailClient := Some accessToken |} |}).
Proof.
  destruct (gmailClient st) as [accessToken|] eqn:Hc.
  - destruct (messages_list gmail accessToken "me" "is:unread" (world st))
      as [[data|e] w'] eqn:Hl.
    + right. left. exists accessToken, data, w'.
      split; [reflexivity|]. split; [exact Hl|].
      apply (checkUnreadEmails_listed gmail st accessToken data w' Hc Hl).
    + right. right. exists accessToken, e, w'.
      split; [reflexivity|]. split; [exact Hl|].
      apply (checkUnreadEmails_rejected st accessToken e w' Hc Hl).
  - left. split; [reflexivity|].
    unfold checkUnreadEmails. rewrite try_catch_run, Hc. reflexivity.
Qed.

Lemma sent_raw_queue (messages : list MessageRef) :
  sent_raw
    (map (fun message =>
       EvQueueAdd "processEmail" (MessageIdData (ref_id message)) None) messages)
  = [].
Proof. induction messages as [|m rest IH]; cbn; [reflexivity | exact IH]. Qed.

(** X3. Polling only reads and queues work: whatever the provider
    answers, the only provider call [checkUnreadEmails] makes is the list
    of unread messages, at most once; it sends nothing and changes no
    label; and every job it queues is an undelayed "processEmail" job, so
    it never schedules the next poll itself. *)
Theorem checkUnreadEmails_only_lists (st : State World) :
  let evs := events (checkUnreadEmails gmail st) in
  (filter is_provider_call evs = []
   \/ filter is_provider_call evs = [EvList "me" "is:unread"])
  /\ sent_raw evs = []
  /\ Forall (fun job => exists messageId,
               job = ("processEmail", MessageIdData messageId, None))
       (queued evs).
Proof.
  cbv zeta.
  destruct (checkUnreadEmails_runs st)
    as [[_ ->]|[(t & data & w' & _ & _ & ->)|(t & e & w' & _ & _ & ->)]];
    cbn [events].
  - repeat split; auto.
  - cbn [filter is_provider_call sent_raw queued].
    rewrite provider_calls_queue, sent_raw_queue, queued_enqueue.
    repeat split; auto.
    induction (match list_messages data with Some l => l | None => [] end)
      as [|m rest IH]; cbn; constructor; [eexists; reflexivity | exact IH].
  - cbn. repeat split; auto.
Qed.

Lemma for_each_nothing (messages : list MessageRef) (st : State World) :
  for_each messages (fun _ => ret tt) st
  = {| result := Resolved tt; events := []; final := st |}.
Proof.
  revert st. induction messages as [|m rest IH]; intros st.
  - reflexivity.
  - cbn [for_each]. rewrite bind_run. cbn [ret result events final app].
    rewrite IH. reflexivity.
Qed.

Lemma drop_queue_adds (messages : list MessageRef) :
  filter (fun ev => negb (is_queue_add ev))
    (map (fun message =>
       EvQueueAdd "processEmail" (MessageIdData (ref_id message)) None) messages)
  = [].
Proof. induction messages as [|m rest IH]; cbn; [reflexivity | exact IH]. Qed.

(** X16. The earlier revision of [checkUnreadEmails], whose loop body is
    only a comment, queues nothing; apart from the queued jobs it behaves
    as the later one does: same outcome, same final state, and the trace
    of the later revision without its queue calls. *)
Theorem checkUnreadEmails_rev0_queues_nothing (st : State World) :
  let r0 := checkUnreadEmails_rev0 gmail st in
  let r := checkUnreadEmails gmail st in
  queued (events r0) = []
  /\ events r0 = filter (fun ev => negb (is_queue_add ev)) (events r)
  /\ result r0 = result r
  /\ final r0 = final r.
Proof.
  cbv zeta.
  destruct (checkUnreadEmails_runs st)
    as [[Hc ->]|[(t & data & w' & Hc & Hl & ->)|(t & e & w' & Hc & Hl & ->)]];
    unfold checkUnreadEmails_rev0; rewrite try_catch_run, Hc.
  - cbn. auto.
  - unfold users_messages_list. rewrite bind_run, provider_call_run, Hc, Hl.
    cbn [fst snd result events final rejection]. rewrite for_each_nothing.
    cbn [result events final app filter is_queue_add negb queued].
    rewrite drop_queue_adds. auto.
  - unfold users_messages_list. rewrite bind_run, provider_call_run, Hc, Hl.
    cbn. auto.
Qed.

End PollingMore.

Lemma checkUnreadEmails_queues_nothing_witness :
  checkUnreadEmails failing_gmail bound
  = {| result := Resolved tt;
       events := [EvList "me" "is:unread"; EvRejected an_error;
                  check_failure an_error];
       final := bound |}
  /\ checkUnreadEmails quiet_gmail bound
     = {| result := Resolved tt; events := [EvList "me" "is:unread"];
          final := bound |}.
Proof.
  split.
  - destruct (checkUnreadEmails_queues_nothing failing_gmail bound "token" eq_refl)
      as [H _].
    apply (H an_error tt). reflexivity.
  - destruct (checkUnreadEmails_queues_nothing quiet_gmail bound "token" eq_refl)
      as [_ H].
    apply (H {| list_messages := None |} tt); [reflexivity | left; reflexivity].
Defined.

(** ** The bound session is an invariant *)

Section Session.
Context {World : Type}.
Variable gmail : Gmail World.
Variable openaiService : OpenaiService World.

Lemma keeps_ret {A} (a : A) : keeps_client (@ret World A a).
Proof. intros st. reflexivity. Qed.

Lemma keeps_throw {A} (e : JsError) : keeps_client (@throw World A e).
Proof. intros st. reflexivity. Qed.

Lemma keeps_emit (ev : Event) : keeps_client (@emit World ev).
Proof. intros st. reflexivity. Qed.

Lemma keeps_call {A} (ev : Event) (op : World -> Outcome A * World) :
  keeps_client (call ev op).
Proof. intros st. reflexivity. Qed.

Lemma keeps_service_call (ev : Event) (op : World -> Reply * World) :
  keeps_client (service_call ev op).
Proof. intros st. reflexivity. Qed.

Lemma keeps_users : keeps_client (@gmailClient_users World).
Proof. intros [w [c|]]; reflexivity. Qed.

Lemma keeps_bind {A B} (m : M World A) (k : A -> M World B) :
  keeps_client m -> (forall a, keeps_client (k a)) -> keeps_client (bind m k).
Proof.
  intros Hm Hk st. rewrite bind_run.
  destruct (result (m st)) as [a|e]; cbn [final].
  - rewrite Hk. apply Hm.
  - apply Hm.
Qed.

Lemma keeps_try_catch {A} (body : M World A) (handler : JsError -> M World A) :
  keeps_client body -> (forall e, keeps_client (handler e)) ->
  keeps_client (try_catch body handler).
Proof.
  intros Hb Hh st. rewrite try_catch_run.
  destruct (result (body st)) as [a|e]; cbn [final].
  - apply Hb.
  - rewrite Hh. apply Hb.
Qed.

Lemma keeps_for_each {A} (l : list A) (body : A -> M World unit) :
  (forall x, keeps_client (body x)) -> keeps_client (for_each l body).
Proof.
  intros Hbody. induction l as [|x rest IH]; cbn [for_each].
  - apply keeps_ret.
  - apply keeps_bind; [apply Hbody | intros _; exact IH].
Qed.

Create HintDb session.
#[local] Hint Resolve keeps_ret keeps_throw keeps_emit keeps_call
  keeps_service_call keeps_users keeps_bind keeps_try_catch keeps_for_each
  : session.
#[local] Hint Unfold logger_log logger_warn logger_error emailQueue_add
  users_messages_list users_messages_get users_messages_send
  users_messages_modify : session.

Ltac keeps :=
  repeat first
    [ apply keeps_try_catch
    | apply keeps_bind
    | apply keeps_for_each
    | intro ]; auto with session.

Lemma keeps_checkUnreadEmails : keeps_client (checkUnreadEmails gmail).
Proof.
  unfold checkUnreadEmails. apply keeps_try_catch.
  - assert (H : keeps_client
                  (bind (users_messages_list gmail "me" "is:unread")
                     (fun res =>
                        for_each
                          (match list_messages res with Some l => l | None => [] end)
                          (fun message =>
                             emailQueue_add "processEmail"
                               (MessageIdData (ref_id message)) None))))
      by (unfold users_messages_list, emailQueue_add; keeps).
    intros [w [c|]]; [apply H | reflexivity].
  - intros e. unfold logger_error. apply keeps_emit.
Qed.

Lemma keeps_getEmailData (messageId : string) :
  keeps_client (getEmailData gmail messageId).
Proof.
  unfold getEmailData, users_messages_get, logger_error.
  apply keeps_try_catch; [|keeps].
  apply keeps_bind; [keeps|]. intros email.
  apply keeps_bind; [destruct (msg_payload email); keeps|]. intros payload.
  apply keeps_bind; [destruct (part_headers payload); keeps|]. keeps.
Qed.

Lemma keeps_assignLabelToEmail (messageId : string) (labelId : propval) :
  keeps_client (assignLabelToEmail gmail messageId labelId).
Proof.
  unfold assignLabelToEmail, users_messages_modify, logger_log, logger_error.
  keeps.
Qed.

Lemma keeps_sendReplyEmail (messageId : string) (replyData : ReplyData) :
  keeps_client (sendReplyEmail gmail messageId replyData).
Proof.
  unfold sendReplyEmail, users_messages_send, logger_log, logger_error.
  keeps.
Qed.

Lemma keeps_markEmailAsRead (messageId : string) :
  keeps_client (markEmailAsRead gmail messageId).
Proof.
  unfold markEmailAsRead, users_messages_modify, logger_log, logger_error.
  keeps.
Qed.

Lemma keeps_processIncomingEmail (messageId : string) (emailData : EmailData) :
  keeps_client (processIncomingEmail gmail openaiService messageId emailData).
Proof.
  unfold processIncomingEmail, logger_log, logger_warn, logger_error.
  apply keeps_try_catch; [|keeps].
  repeat (apply keeps_bind; [auto with session | intro]).
  - destruct (prop_truthy _);
      [apply keeps_assignLabelToEmail | apply keeps_emit].
  - apply keeps_sendReplyEmail.
  - apply keeps_markEmailAsRead.
Qed.

(** X4. The bound session is set by [initializeGmailClient] and by
    nothing else: after any other operation of the service, whatever the
    provider and the classifier did, the client is the one the operation
    found, bound or not. *)
Theorem client_only_set_by_initialize (op : Operation) (st : State World) :
  gmailClient (final (invoke gmail openaiService op st))
  = match op with
    | OpInitializeGmailClient accessToken => Some accessToken
    | _ => gmailClient st
    end.
Proof.
  destruct op as [accessToken| | |messageId|messageId emailData]; cbn [invoke].
  - reflexivity.
  - reflexivity.
  - apply keeps_checkUnreadEmails.
  - unfold discard. apply keeps_bind; [apply keeps_getEmailData | intros; apply keeps_ret].
  - apply keeps_processIncomingEmail.
Qed.

End Session.

(** ** Fetching: what it never does, and unreadable messages *)

Section FetchingMore.
Context {World : Type}.
Variable gmail : Gmail World.

(** X5. Fetching only reads: whatever the provider answers,
    [getEmailData] makes at most one provider call, the [get] of the
    message it was asked for; it sends nothing, changes no label (the
    message stays unread) and queues nothing. *)
Theorem getEmailData_reads_only (st : State World) (messageId : string) :
  let evs := events (getEmailData gmail messageId st) in
  (filter is_provider_call evs = []
   \/ filter is_provider_call evs = [EvGet "me" messageId])
  /\ sent_raw evs = []
  /\ queued evs = [].
Proof.
  cbv zeta.
  pose proof (getEmailData_cases gmail st messageId) as H. cbv zeta in H.
  destruct H as [(d & _ & ->)|(e & _ & [ -> | [ -> | -> ] ])]; cbn; auto.
Qed.

(** X6. A message the provider returns without a payload, or with a
    payload without headers, cannot be read: although the call succeeded,
    [getEmailData] returns [null] and logs the [TypeError], whatever the
    snippet holds. *)
Theorem getEmailData_unreadable (st : State World) (accessToken messageId : string)
    (email : GmailMessage) (w' : World) :
  gmailClient st = Some accessToken ->
  messages_get gmail accessToken "me" messageId (world st) = (Resolved email, w') ->
  (msg_payload email = None ->
   getEmailData gmail messageId st
   = {| result := Resolved None;
        events := [EvGet "me" messageId;
                   fetch_failure messageId (TypeError_undefined "headers")];
        final := {| world := w'; gmailClient := Some accessToken |} |})
  /\ (msg_payload email = Some {| part_headers := None |} ->
      getEmailData gmail messageId st
      = {| result := Resolved None;
           events := [EvGet "me" messageId;
                      fetch_failure messageId (TypeError_undefined "find")];
           final := {| world := w'; gmailClient := Some accessToken |} |}).
Proof.
  intros Hc Hg.
  unfold getEmailData, users_messages_get.
  rewrite try_catch_run, bind_run, provider_call_run, Hc, Hg.
  cbn [fst snd result events final rejection].
  rewrite bind_run.
  split; intros Hp; rewrite Hp; cbn [ret throw result events final].
  - reflexivity.
  - rewrite bind_run. cbn [throw part_headers result events final].
    reflexivity.
Qed.

(** X17. [getEmailData] does not check that a session is bound: with no
    client it calls nothing, logs the [TypeError] raised by reading
    [users] of [undefined], and returns [null]. *)
Theorem getEmailData_unbound (st : State World) (messageId : string) :
  gmailClient st = None ->
  getEmailData gmail messageId st
  = {| result := Resolved None;
       events := [fetch_failure messageId (TypeError_undefined "users")];
       final := st |}.
Proof.
  intros Hc.
  unfold getEmailData, users_messages_get.
  rewrite try_catch_run, bind_run, provider_call_run, Hc. reflexivity.
Qed.

End FetchingMore.

Lemma getEmailData_unreadable_witness :
  result (getEmailData quiet_gmail "m1" bound) = Resolved None.
Proof.
  destruct (getEmailData_unreadable quiet_gmail bound "token" "m1"
              {| msg_payload := None; msg_snippet := JUndefined |} tt
              eq_refl eq_refl) as [H _].
  rewrite (H eq_refl). reflexivity.
Defined.

Lemma getEmailData_unbound_witness :
  result (getEmailData quiet_gmail "m1" unbound) = Resolved None.
Proof.
  rewrite (getEmailData_unbound quiet_gmail unbound "m1" eq_refl). reflexivity.
Defined.

(** ** The reply encoding: undefined text, collisions, lengths *)

Lemma append_assoc (a b c : string) : (a ++ b) ++ c = a ++ (b ++ c).
Proof. induction a as [|x a IH]; cbn; [reflexivity | rewrite IH; reflexivity]. Qed.

Lemma append_inv_head (p x y : string) : p ++ x = p ++ y -> x = y.
Proof.
  induction p as [|c p IH]; cbn; intros H; [exact H|].
  injection H as H. exact (IH H).
Qed.

(** X7. A reply whose text is [undefined] is encoded as a reply with the
    empty text: the message still has its five headers and the empty line,
    and nothing after it. *)
Theorem createReplyMessage_undefined_text (a b S M : string) :
  createReplyMessage a b S JUndefined M = createReplyMessage a b S (JString "") M
  /\ Base64.url_decode (createReplyMessage a b S JUndefined M)
     = Some (reply_block a b S "" M).
Proof.
  split; [reflexivity|].
  unfold createReplyMessage. rewrite url_decode_base64url. reflexivity.
Qed.

(** X8. On the bytes that [Buffer.from] hands to it, the encoding loses
    nothing: two messages whose byte sequences differ never have the same
    base64url encoding, and with the same addresses, subject and message
    id, two reply texts whose byte sequences differ never give the same
    raw message.  (A text is modelled by its UTF-8 bytes; texts that
    [Buffer.from] writes as the same bytes, as it does for every lone
    surrogate and U+FFFD, are one text here and one raw message in the
    service.) *)
Theorem base64url_injective (s1 s2 : string) :
  s1 <> s2 ->
  base64url s1 <> base64url s2
  /\ forall a b S M,
       createReplyMessage a b S (JString s1) M
       <> createReplyMessage a b S (JString s2) M.
Proof.
  intros Hne.
  assert (Hinj : forall x y, base64url x = base64url y -> x = y).
  { intros x y E.
    pose proof (url_decode_base64url x) as Hx. rewrite E in Hx.
    rewrite url_decode_base64url in Hx. injection Hx as ->. reflexivity. }
  split.
  - intros E. exact (Hne (Hinj _ _ E)).
  - intros a b S M E. unfold createReplyMessage in E. apply Hinj in E.
    cbn [js_join messageParts join_elem] in E.
    repeat apply append_inv_head in E. exact (Hne E).
Qed.

(** X18. The fields are written into the message as they are: a line
    break inside an address is not escaped, so text after it becomes a
    header line of its own, and two different pairs of addresses can give
    the same raw message. *)
Theorem createReplyMessage_no_escaping (a b c S M : string) (T : jsval) :
  createReplyMessage (a ++ nl ++ "To: " ++ b) c S T M
  = createReplyMessage a (b ++ nl ++ "To: " ++ c) S T M.
Proof.
  unfold createReplyMessage. f_equal.
  cbn [js_join messageParts join_elem].
  repeat (rewrite append_assoc; cbn [append]).
  reflexivity.
Qed.

(** X9. The length of the encoding: [Buffer.toString('base64')] gives four
    characters for every three bytes, the last group padded, and the raw
    message, with the padding removed, has ceil(4n/3) characters for n
    bytes. *)
Theorem base64url_length (s : string) :
  String.length (Base64.encode s) = 4 * Nat.div (String.length s + 2) 3
  /\ String.length (base64url s) = Nat.div (4 * String.length s + 2) 3.
Proof.
  split.
  - induction s as [|a|a b|a b c r IH] using string_triples_ind;
      try reflexivity.
    cbn [Base64.encode String.length]. rewrite IH.
    replace (S (S (S (String.length r))) + 2) with (1 * 3 + (String.length r + 2)) by lia.
    rewrite Nat.div_add_l by lia. lia.
  - unfold base64url.
    induction s as [|a|a b|a b c r IH] using string_triples_ind.
    + reflexivity.
    + cbn [Base64.encode]. rewrite !replace_all_digit.
      sextets a zero. rewrite zero_byte in *. to_url_digit. unstrip.
      reflexivity.
    + cbn [Base64.encode]. rewrite !replace_all_digit.
      sextets a b. sextets b zero. rewrite zero_byte in *. to_url_digit. unstrip.
      reflexivity.
    + cbn [Base64.encode]. rewrite !replace_all_digit.
      sextets a b. sextets b c. sextets c zero. to_url_digit. unstrip.
      cbn [String.length]. rewrite IH.
      replace (4 * S (S (S (String.length r))) + 2)
        with (4 * 3 + (4 * String.length r + 2)) by lia.
      rewrite Nat.div_add_l by lia. lia.
Qed.

Lemma base64url_injective_witness :
  base64url "a" <> base64url "b".
Proof.
  destruct (base64url_injective "a" "b") as [H _]; [discriminate | exact H].
Defined.

(** ** Processing: which calls a run makes *)

Lemma read_calls_logs (lines : list LogLine) :
  filter is_read_call (map EvLogger lines) = [].
Proof. induction lines as [|l rest IH]; cbn; [reflexivity | exact IH]. Qed.

Lemma service_calls_logs (lines : list LogLine) :
  filter is_service_call (map EvLogger lines) = [].
Proof. induction lines as [|l rest IH]; cbn; [reflexivity | exact IH]. Qed.

#[local] Hint Rewrite read_calls_logs service_calls_logs : trace.

(** Brings the readings of an explicit trace to normal form. *)
Ltac norm_calls :=
  unfold label_failure, send_failure, read_failure, process_failure,
    no_label_warning, line;
  repeat (autorewrite with trace;
          cbn [filter is_provider_call is_collaborator_call is_label_call
               is_read_call is_service_call queued sent_raw app map]).

Section ProcessingMore.
Context {World : Type}.
Variable gmail : Gmail World.
Variable openaiService : OpenaiService World.

(** X10. The provider calls of one run of [processIncomingEmail], whatever
    the provider and the classifier do: at most one label call, then at
    most one send, then at most one removal of labels, in this order and
    nothing else; the label call and the removal are on the message being
    processed, the removal is of ["UNREAD"] only, and the message sent is
    the reply built for this message.  The run queues nothing. *)
Theorem processIncomingEmail_provider_calls (messageId : string)
    (emailData : EmailData) (st : State World) :
  let evs := events (processIncomingEmail gmail openaiService messageId emailData st) in
  filter is_provider_call evs
  = (filter is_label_call evs ++ map (EvSend "me") (sent_raw evs)
     ++ filter is_read_call evs)%list
  /\ (filter is_label_call evs = []
      \/ exists labelId,
           filter is_label_call evs = [EvModify "me" messageId (AddLabelIds [labelId])])
  /\ (sent_raw evs = []
      \/ exists replyContent,
           sent_raw evs
           = [createReplyMessage (email_to emailData) (email_from emailData)
                (email_subject emailData) replyContent messageId])
  /\ (filter is_read_call evs = []
      \/ filter is_read_call evs
         = [EvModify "me" messageId (RemoveLabelIds ["UNREAD"])])
  /\ queued evs = [].
Proof.
  cbv zeta.
  destruct (processIncomingEmail_run gmail openaiService messageId emailData st)
    as (evs & w' & -> & Htrace).
  cbn [events].
  trace_cases Htrace; norm_calls;
    (split; [reflexivity|]);
    (split; [first [left; reflexivity | right; eexists; reflexivity]|]);
    (split; [first [left; reflexivity | right; eexists; reflexivity]|]);
    (split; [first [left; reflexivity | right; reflexivity]|]);
    reflexivity.
Qed.

(** X14. Sending and marking as read go together: in every run of
    [processIncomingEmail], either no reply is handed to the provider and
    the message is not marked as read, or one reply is handed to the
    provider and the removal of ["UNREAD"] is requested after it, whether
    the provider accepted the reply or rejected it. *)
Theorem send_and_mark_read_together (messageId : string) (emailData : EmailData)
    (st : State World) :
  let evs := events (processIncomingEmail gmail openaiService messageId emailData st) in
  (sent_raw evs = [] /\ filter is_read_call evs = [])
  \/ (exists replyContent,
        sent_raw evs
        = [createReplyMessage (email_to emailData) (email_from emailData)
             (email_subject emailData) replyContent messageId]
        /\ filter is_read_call evs
           = [EvModify "me" messageId (RemoveLabelIds ["UNREAD"])]).
Proof.
  cbv zeta.
  destruct (processIncomingEmail_run gmail openaiService messageId emailData st)
    as (evs & w' & -> & Htrace).
  cbn [events].
  trace_cases Htrace; norm_calls;
    first [ left; split; reflexivity
          | right; eexists; split; reflexivity ].
Qed.

(** X15. The classifier is consulted on the body of the message and on
    nothing else, at most three times and in a fixed order, each call only
    if the one before resolved: the analysis always; the categorisation
    exactly when the analysis resolved; the reply generation exactly when
    the categorisation resolved. *)
Theorem classifier_calls_in_order (messageId : string) (emailData : EmailData)
    (st : State World) :
  let evs := events (processIncomingEmail gmail openaiService messageId emailData st) in
  let text := emailContent emailData in
  let analysis := analyzeEmailContext openaiService text (world st) in
  let categorisation := categorizeEmailContent openaiService text (snd analysis) in
  filter is_service_call evs
  = match reply_outcome (fst analysis) with
    | Rejected _ => [EvAnalyze text]
    | Resolved _ =>
        match reply_outcome (fst categorisation) with
        | Rejected _ => [EvAnalyze text; EvCategorize text]
        | Resolved _ => [EvAnalyze text; EvCategorize text; EvGenerate text]
        end
    end.
Proof.
  cbv zeta.
  destruct (processIncomingEmail_run gmail openaiService messageId emailData st)
    as (evs & w' & -> & Htrace).
  cbn [events].
  destruct Htrace as
    [ r1 w1 e A1 B1 E
    | r1 r2 w1 w2 context e A1 B1 A2 B2 E
    | r1 r2 r3 w1 w2 w3 w4 context category label_evs e
        A1 B1 A2 B2 L A3 B3 E
    | r1 r2 r3 w1 w2 w3 w4 context category replyContent
        label_evs send_evs read_evs A1 B1 A2 B2 L A3 B3 S R E ];
    rewrite A1; cbn [fst snd]; rewrite B1;
    try (rewrite A2; cbn [fst snd]; rewrite B2);
    repeat match goal with
    | L : label_events _ _ _ _ |- _ =>
        unfold label_events in L; cbv zeta in L;
        destruct (prop_truthy (or_null (labelMapping_get _)))
    | S : step_events _ _ _ _ |- _ =>
        apply step_events_cases in S;
        destruct S as [[? ?]|[(? & ? & ? & ?)|(? & ? & ? & ?)]]
    end;
    subst; unfold service_events;
    repeat match goal with
    | O : reply_outcome _ = _ |- _ => rewrite O; clear O
    end;
    cbn [rejection]; norm_calls; reflexivity.
Qed.

(** X11. [processIncomingEmail] does not check that a session is bound:
    with no client it still consults the classifier, starting with the
    analysis of the body, but no provider call is made: nothing is
    labelled, sent or marked as read, and the run resolves. *)
Theorem processIncomingEmail_unbound (messageId : string) (emailData : EmailData)
    (st : State World) :
  gmailClient st = None ->
  let r := processIncomingEmail gmail openaiService messageId emailData st in
  result r = Resolved tt
  /\ filter is_provider_call (events r) = []
  /\ exists rest, events r = EvAnalyze (emailContent emailData) :: rest.
Proof.
  intros Hc. cbv zeta.
  destruct (processIncomingEmail_run gmail openaiService messageId emailData st)
    as (evs & w' & -> & Htrace).
  cbn [result events]. split; [reflexivity|].
  rewrite Hc in Htrace.
  trace_cases Htrace; norm_calls;
    (split; [reflexivity | eexists; reflexivity]).
Qed.

(** X12. A rejected call of the classifier ends the run in the outer
    handler.  When the analysis is rejected, the run is that call and the
    handler's error line: no provider call is made.  When reply generation
    is always rejected, no reply is sent and the message is not marked as
    read, so it stays unread for the next poll; the handler logs the
    error. *)
Theorem classifier_rejection_ends_run (messageId : string) (emailData : EmailData)
    (st : State World) :
  let r := processIncomingEmail gmail openaiService messageId emailData st in
  let text := emailContent emailData in
  (forall r1 w1 e,
     analyzeEmailContext openaiService text (world st) = (r1, w1) ->
     reply_outcome r1 = Rejected e ->
     events r = (service_events (EvAnalyze text) r1 ++ [process_failure e])%list)
  /\ ((forall w, exists r3 w3 e,
         generateEmailReply openaiService text w = (r3, w3)
         /\ reply_outcome r3 = Rejected e) ->
      sent_raw (events r) = []
      /\ filter is_read_call (events r) = []
      /\ exists e, In (process_failure e) (events r)).
Proof.
  cbv zeta.
  destruct (processIncomingEmail_run gmail openaiService messageId emailData st)
    as (evs & w' & -> & Htrace).
  cbn [events]. split.
  - intros r1 w1 e H1 O1.
    destruct Htrace as
      [ r1' w1' e' A1 B1 E
      | r1' r2' w1' w2' context' e' A1 B1 A2 B2 E
      | r1' r2' r3 w1' w2' w3 w4 context' category' label_evs e'
          A1 B1 A2 B2 L A3 B3 E
      | r1' r2' r3 w1' w2' w3 w4 context' category' replyContent
          label_evs send_evs read_evs A1 B1 A2 B2 L A3 B3 S R E ];
      rewrite H1 in A1; injection A1 as <- <-; congruence.
  - intros Hfail.
    destruct Htrace as
      [ r1' w1' e' A1 B1 E
      | r1' r2' w1' w2' context' e' A1 B1 A2 B2 E
      | r1' r2' r3 w1' w2' w3 w4 context' category' label_evs e'
          A1 B1 A2 B2 L A3 B3 E
      | r1' r2' r3 w1' w2' w3 w4 context' category' replyContent
          label_evs send_evs read_evs A1 B1 A2 B2 L A3 B3 S R E ].
    4:{ destruct (Hfail w3) as (r3' & w3' & e & A & B). congruence. }
    all: subst evs;
      try (unfold label_events in L; cbv zeta in L;
           destruct (prop_truthy (or_null (labelMapping_get category')));
           [ apply step_events_cases in L;
             destruct L as [[? ->]|[(? & ? & ? & ->)|(? & ? & ? & ->)]]
           | subst label_evs ]);
      unfold service_events;
      repeat match goal with
      | O : reply_outcome _ = _ |- _ => rewrite O; clear O
      end;
      cbn [rejection];
      (split; [norm_calls; reflexivity|]);
      (split; [norm_calls; reflexivity|]);
      exists e'; in_trace.
Qed.

End ProcessingMore.

Lemma processIncomingEmail_unbound_witness :
  filter is_provider_call
    (events (processIncomingEmail quiet_gmail (answering "ctx" "Interested" "Hi")
               "m1" sample_email unbound))
  = [].
Proof.
  destruct (processIncomingEmail_unbound quiet_gmail
              (answering "ctx" "Interested" "Hi") "m1" sample_email unbound eq_refl)
    as (_ & H & _).
  exact H.
Defined.

Lemma classifier_rejection_ends_run_witness :
  let r := processIncomingEmail quiet_gmail rejecting_openai "m1" sample_email bound in
  events r = [EvAnalyze "Tell me more"; EvRejected an_error; process_failure an_error]
  /\ sent_raw (events r) = []
  /\ filter is_read_call (events r) = [].
Proof.
  destruct (classifier_rejection_ends_run quiet_gmail rejecting_openai "m1"
              sample_email bound) as [Ha Hg].
  split.
  - apply (Ha {| reply_logs := []; reply_outcome := Rejected an_error |} tt an_error);
      reflexivity.
  - destruct Hg as (Hs & Hr & _); [|split; assumption].
    intros w. exists {| reply_logs := []; reply_outcome := Rejected an_error |}, w, an_error.
    split; reflexivity.
Defined.

Lemma label_lookup_witness :
  filter is_label_call
    (events (processIncomingEmail quiet_gmail (answering "ctx" "Interested" "Hi")
               "m1" sample_email bound))
  = [EvModify "me" "m1" (AddLabelIds [PString "Label_3035777443514222121"])]
  /\ filter is_label_call
       (events (processIncomingEmail quiet_gmail
                  (scripted_openai (Resolved (JString "ctx")) (Resolved JUndefined)
                     (Resolved (JString "Hi")))
                  "m1" sample_email bound))
     = [].
Proof.
  split.
  - destruct (label_lookup quiet_gmail (answering "ctx" "Interested" "Hi")
                "m1" sample_email bound
                {| reply_logs := []; reply_outcome := Resolved (JString "ctx") |}
                {| reply_logs := []; reply_outcome := Resolved (JString "Interested") |}
                tt tt (JString "ctx") (JString "Interested")
                eq_refl eq_refl eq_refl eq_refl) as [H _].
    apply (H "Label_3035777443514222121" "token"); reflexivity.
  - destruct (label_lookup quiet_gmail
                (scripted_openai (Resolved (JString "ctx")) (Resolved JUndefined)
                   (Resolved (JString "Hi")))
                "m1" sample_email bound
                {| reply_logs := []; reply_outcome := Resolved (JString "ctx") |}
                {| reply_logs := []; reply_outcome := Resolved JUndefined |}
                tt tt (JString "ctx") JUndefined
                eq_refl eq_refl eq_refl eq_refl) as [_ H].
    destruct H as [H _]; [reflexivity | reflexivity | exact H].
Defined.

(** ** From the fetched message to the reply *)

Section Pipeline.
Context {World : Type}.
Variable gmail : Gmail World.
Variable openaiService : OpenaiService World.

Lemma createReplyMessage_headed (from to subject : string) (text : jsval)
    (messageId : string) :
  headed from to subject (createReplyMessage from to subject text messageId).
Proof.
  unfold headed, createReplyMessage. rewrite url_decode_base64url.
  eexists. cbn [js_join messageParts join_elem].
  rewrite !append_assoc. cbn [append]. reflexivity.
Qed.

(** X19. Fetching a message and processing the record obtained: when the
    first "From" header of the message is [a] and its first "To" header
    is [b], [getEmailData] returns a record, and every reply that
    [processIncomingEmail] then sends for this record goes from [b] to
    [a], with the subject "Re: " followed by the record's subject; that
    subject is "No Subject" when the message has no "Subject" header. *)
Theorem fetched_message_is_answered (st : State World)
    (accessToken messageId a b : string) (email : GmailMessage)
    (headers : list Header) (w' : World) :
  gmailClient st = Some accessToken ->
  messages_get gmail accessToken "me" messageId (world st) = (Resolved email, w') ->
  msg_payload email = Some {| part_headers := Some headers |} ->
  first_header headers "From" (JString a) ->
  first_header headers "To" (JString b) ->
  exists d,
    result (getEmailData gmail messageId st) = Resolved (Some d)
    /\ (no_header headers "Subject" -> email_subject d = "No Subject")
    /\ forall st',
         Forall (headed b a (email_subject d))
           (sent_raw (events
              (processIncomingEmail gmail openaiService messageId d st'))).
Proof.
  intros Hc Hg Hp Hfrom Hto.
  rewrite (getEmailData_fetched gmail st accessToken messageId email headers w'
             Hc Hg Hp).
  eexists. split; [reflexivity|].
  cbn [email_subject email_from email_to].
  split.
  { intros Hn. rewrite (find_header_none _ _ Hn). reflexivity. }
  intros st'.
  rewrite (find_header_first _ _ _ Hfrom), (find_header_first _ _ _ Hto).
  rewrite !or_default_empty_default.
  destruct (processIncomingEmail_run gmail openaiService messageId
              {| email_from := a; email_to := b;
                 email_subject := or_default (find_header headers "Subject") "No Subject";
                 emailContent := or_default (msg_snippet email) "" |} st')
    as (evs & w'' & -> & Htrace).
  cbn [events].
  trace_cases Htrace; norm_calls; repeat constructor;
    apply createReplyMessage_headed.
Qed.

End Pipeline.

Lemma fetched_message_is_answered_witness :
  exists d,
    result (getEmailData
              (gmail_with_headers [header "From" "a"; header "To" "b"]) "m1" bound)
    = Resolved (Some d)
    /\ email_subject d = "No Subject"
    /\ Forall (headed "b" "a" (email_subject d))
         (sent_raw (events
            (processIncomingEmail
               (gmail_with_headers [header "From" "a"; header "To" "b"])
               (answering "ctx" "Interested" "Hi") "m1" d bound))).
Proof.
  destruct (fetched_message_is_answered
              (gmail_with_headers [header "From" "a"; header "To" "b"])
              (answering "ctx" "Interested" "Hi") bound "token" "m1" "a" "b"
              {| msg_payload :=
                   Some {| part_headers := Some [header "From" "a"; header "To" "b"] |};
                 msg_snippet := JUndefined |}
              [header "From" "a"; header "To" "b"] tt eq_refl eq_refl eq_refl)
    as (d & Hd & Hs & Hr).
  - exists [], [header "To" "b"]. split; [reflexivity | constructor].
  - exists [header "From" "a"], []. split; [reflexivity|].
    repeat constructor. discriminate.
  - exists d. split; [exact Hd|]. split; [|apply Hr].
    apply Hs. repeat constructor; discriminate.
Defined.
